(** * Markdown serialisation of a Lexical document: [$convertToMarkdownString]

    A shallow embedding of
    [packages/lexical-markdown/src/convertToMarkdown.js].

    The JavaScript function walks the array produced by [$dfs] once, keeps an
    output buffer, one flag and four stacks, and returns the buffer.  Here the
    array is a [list Entry], the locals of the function are the record
    [State], one turn of the [for] loop is [iteration], and an exception
    raised by the JavaScript runtime is the [Throw] case of [Result].

    Conventions.
    - A JavaScript string is a [string]; [+] is [append].
    - A depth is a [Z]; the comparison [a <= b] is [Z.leb].
    - A JavaScript array used as a stack ([push], [pop], read of the last
      element) is a [list] whose HEAD is the array's LAST element. *)

From Stdlib Require Import String Ascii List ZArith Bool Arith Lia.
From Stdlib Require DecimalString.
Import ListNotations.

Local Open Scope list_scope.
Local Open Scope string_scope.

(** ** Errors of the runtime *)

Inductive Exception : Type :=
| RangeError   (* [String.prototype.repeat] called with a negative count *)
| TypeError.   (* property read on [undefined] *)

Inductive Result (A : Type) : Type :=
| Ok (a : A)
| Throw (e : Exception).

Arguments Ok {A} a.
Arguments Throw {A} e.

Definition bind {A B : Type} (r : Result A) (k : A -> Result B) : Result B :=
  match r with
  | Ok a => k a
  | Throw e => Throw e
  end.

Notation "x <- r ;; k" := (bind r (fun x => k))
  (at level 61, r at next level, right associativity).

(** ** The nodes, as the serialiser reads them *)

(** The format names [hasFormat] is asked about, and the other ones a text
    node may carry. *)
Inductive TextFormatType : Type :=
| bold | italic | strikethrough | underline | code.

Definition formatEqb (a b : TextFormatType) : bool :=
  match a, b with
  | bold, bold | italic, italic | strikethrough, strikethrough
  | underline, underline | code, code => true
  | _, _ => false
  end.

(** One constructor per classification predicate of the source, in the order
    the [if]/[else if] chain tests them, and [OtherNode] for a node none of
    them accepts.  The arguments are the values of the accessors the
    serialiser calls: [getTag], [getChildrenSize] and
    [$isListNode(getFirstChild())], [getTextContent] and the active formats,
    [getURL]. *)
Inductive Node : Type :=
| HeadingNode (tag : string)
| ListNode (tag : string)
| ListItemNode (childrenSize : nat) (firstChildIsList : bool)
| TextNode (textContent : string) (format : list TextFormatType)
| ParagraphNode
| QuoteNode
| LineBreakNode
| CodeNode
| LinkNode (url : string)
| OtherNode.

Definition hasFormat (format : list TextFormatType) (type : TextFormatType)
  : bool :=
  existsb (formatEqb type) format.

Record Entry : Type := { depth : Z; node : Node }.

(** ** Helpers of the module *)

(** [' '.repeat(n)] on strings. *)
Fixpoint repeatString (s : string) (n : nat) : string :=
  match n with
  | O => ""
  | S n' => s ++ repeatString s n'
  end.

(** [s.repeat(count)]: a negative count raises [RangeError]. *)
Definition jsRepeat (s : string) (count : Z) : Result string :=
  if (count <? 0)%Z then Throw RangeError
  else Ok (repeatString s (Z.to_nat count)).

(** [s.replace(/c/g, r)] for a pattern that is one literal character and a
    replacement without [$]: every occurrence of [c], left to right, becomes
    [r]; the text put in is not scanned again. *)
Fixpoint replaceAll (c : ascii) (r : string) (s : string) : string :=
  match s with
  | EmptyString => EmptyString
  | String a rest =>
      if Ascii.eqb a c then r ++ replaceAll c r rest
      else String a (replaceAll c r rest)
  end.

(** The template [`${n}`] for a counter. *)
Definition numberToString (n : nat) : string :=
  DecimalString.NilEmpty.string_of_uint (Nat.to_uint n).

Definition backslash : ascii := Ascii.ascii_of_nat 92.
Definition newline : string := String (Ascii.ascii_of_nat 10) EmptyString.

Definition appendLineBreak (text : string) (isFirstLineBreak : bool) : string :=
  if (0 <? String.length text)%nat || isFirstLineBreak then text ++ newline
  else text.

Definition encodeURL (url : string) : string :=
  replaceAll ")" "%29" url.

Definition encodeURLTitle (url : string) : string :=
  replaceAll "]" (String backslash "]")
    (replaceAll "[" (String backslash "[")
       (replaceAll backslash (String backslash (String backslash "")) url)).

Definition hasSingleListChild (childrenSize : nat) (firstChildIsList : bool)
  : bool :=
  (childrenSize =? 1)%nat && firstChildIsList.

(** ** The locals of [$convertToMarkdownString] *)

Record LinkFrame : Type := { link_depth : Z; endText : string }.
Record ListFrame : Type := { count : nat; list_depth : Z; list_tag : string }.
Record QuoteFrame : Type := { quote_depth : Z }.
Record CodeFrame : Type := { code_depth : Z }.

Record State : Type := {
  text : string;
  shouldAppendFirstLineBreak : bool;
  closingBracketStack : list LinkFrame;
  listStack : list ListFrame;
  quoteStack : list QuoteFrame;
  codeStack : list CodeFrame
}.

(** Lines 44 to 50: the state every call starts from. *)
Definition initialState : State :=
  {| text := "";
     shouldAppendFirstLineBreak := false;
     closingBracketStack := [];
     listStack := [];
     quoteStack := [];
     codeStack := [] |}.

Definition setText (st : State) (t : string) : State :=
  {| text := t;
     shouldAppendFirstLineBreak := shouldAppendFirstLineBreak st;
     closingBracketStack := closingBracketStack st;
     listStack := listStack st;
     quoteStack := quoteStack st;
     codeStack := codeStack st |}.

Definition setShouldAppendFirstLineBreak (st : State) (b : bool) : State :=
  {| text := text st;
     shouldAppendFirstLineBreak := b;
     closingBracketStack := closingBracketStack st;
     listStack := listStack st;
     quoteStack := quoteStack st;
     codeStack := codeStack st |}.

Definition setClosingBracketStack (st : State) (s : list LinkFrame) : State :=
  {| text := text st;
     shouldAppendFirstLineBreak := shouldAppendFirstLineBreak st;
     closingBracketStack := s;
     listStack := listStack st;
     quoteStack := quoteStack st;
     codeStack := codeStack st |}.

Definition setListStack (st : State) (s : list ListFrame) : State :=
  {| text := text st;
     shouldAppendFirstLineBreak := shouldAppendFirstLineBreak st;
     closingBracketStack := closingBracketStack st;
     listStack := s;
     quoteStack := quoteStack st;
     codeStack := codeStack st |}.

Definition setQuoteStack (st : State) (s : list QuoteFrame) : State :=
  {| text := text st;
     shouldAppendFirstLineBreak := shouldAppendFirstLineBreak st;
     closingBracketStack := closingBracketStack st;
     listStack := listStack st;
     quoteStack := s;
     codeStack := codeStack st |}.

Definition setCodeStack (st : State) (s : list CodeFrame) : State :=
  {| text := text st;
     shouldAppendFirstLineBreak := shouldAppendFirstLineBreak st;
     closingBracketStack := closingBracketStack st;
     listStack := listStack st;
     quoteStack := quoteStack st;
     codeStack := s |}.

(** ** Lines 53 to 116: the emission for one node *)

(** The wrapping of a text run, lines 77 to 92. *)
Definition formatText (insideLink : bool) (currentText : string)
    (format : list TextFormatType) : string :=
  let formattedText := currentText in
  let formattedText :=
    if insideLink then encodeURLTitle formattedText else formattedText in
  let formattedText :=
    if hasFormat format code then "`" ++ formattedText ++ "`"
    else formattedText in
  let formattedText :=
    if hasFormat format bold then "**" ++ formattedText ++ "**"
    else formattedText in
  let formattedText :=
    if hasFormat format italic then "*" ++ formattedText ++ "*"
    else formattedText in
  let formattedText :=
    if hasFormat format strikethrough then "~~" ++ formattedText ++ "~~"
    else formattedText in
  formattedText.

(** The list-item branch, lines 65 to 74.  [listStack[listStack.length - 1]]
    is [undefined] on an empty stack; [' '.repeat] is then called with [-4]
    and raises before [list.tag] is read. *)
Definition emitListItem (st : State) : Result State :=
  let st := setText st
              (appendLineBreak (text st) (shouldAppendFirstLineBreak st)) in
  let list := hd_error (listStack st) in
  indent <- jsRepeat " " ((Z.of_nat (List.length (listStack st)) - 1) * 4) ;;
  match list with
  | None => Throw TypeError
  | Some list =>
      if String.eqb (list_tag list) "ol" then
        let list' := {| count := S (count list);
                        list_depth := list_depth list;
                        list_tag := list_tag list |} in
        let st := setListStack st (list' :: tl (listStack st)) in
        Ok (setText st
              (text st ++ indent ++ numberToString (count list') ++ ". "))
      else if String.eqb (list_tag list) "ul" then
        Ok (setText st (text st ++ indent ++ "- "))
      else Ok st
  end.

Definition dispatch (e : Entry) (st : State) : Result State :=
  match node e with
  | HeadingNode tag =>
      if String.eqb tag "h1" then
        let st := setText st
              (appendLineBreak (text st) (shouldAppendFirstLineBreak st)) in
        Ok (setText st (text st ++ "# "))
      else if String.eqb tag "h2" then
        let st := setText st
              (appendLineBreak (text st) (shouldAppendFirstLineBreak st)) in
        Ok (setText st (text st ++ "## "))
      else Ok st
  | ListNode tag =>
      Ok (setListStack st
            ({| count := 0; list_depth := depth e; list_tag := tag |}
               :: listStack st))
  | ListItemNode childrenSize firstChildIsList =>
      if negb (hasSingleListChild childrenSize firstChildIsList)
      then emitListItem st
      else Ok st
  | TextNode currentText format =>
      let insideLink := (0 <? List.length (closingBracketStack st))%nat in
      Ok (setText st (text st ++ formatText insideLink currentText format))
  | ParagraphNode =>
      let st := setText st
            (appendLineBreak (text st) (shouldAppendFirstLineBreak st)) in
      Ok (setShouldAppendFirstLineBreak st true)
  | QuoteNode =>
      let st := setText st
            (appendLineBreak (text st) (shouldAppendFirstLineBreak st)) in
      let st := setText st (text st ++ "> ") in
      Ok (setQuoteStack st ({| quote_depth := depth e |} :: quoteStack st))
  | LineBreakNode =>
      Ok (setText st
            (appendLineBreak (text st) (shouldAppendFirstLineBreak st)))
  | CodeNode =>
      let st := setText st
            (appendLineBreak (text st) (shouldAppendFirstLineBreak st)) in
      let st := setText st (text st ++ "```" ++ newline) in
      Ok (setCodeStack st ({| code_depth := depth e |} :: codeStack st))
  | LinkNode url =>
      let st := setText st (text st ++ "[") in
      let endText := "](" ++ encodeURL url ++ ")" in
      Ok (setClosingBracketStack st
            ({| link_depth := depth e; endText := endText |}
               :: closingBracketStack st))
  | OtherNode => Ok st
  end.

(** ** Lines 118 to 156: closing the frames whose subtree has ended *)

(** [nextNode == null || nextNode.depth <= d] *)
Definition closes (nextNode : option Entry) (d : Z) : bool :=
  match nextNode with
  | None => true
  | Some n => (depth n <=? d)%Z
  end.

(** Lines 118 to 128: one [if], so at most one link frame is popped. *)
Definition closeLink (nextNode : option Entry) (st : State) : State :=
  match closingBracketStack st with
  | topOfBracketStack :: below =>
      if closes nextNode (link_depth topOfBracketStack) then
        setText (setClosingBracketStack st below)
                (text st ++ endText topOfBracketStack)
      else st
  | [] => st
  end.

(** Lines 130 to 137.  The [while] loop pops one frame per turn, so it is a
    recursion on the stack. *)
Fixpoint closeCodeLoop (nextNode : option Entry) (stack : list CodeFrame)
    (text : string) : list CodeFrame * string :=
  match stack with
  | top :: below =>
      if closes nextNode (code_depth top)
      then closeCodeLoop nextNode below (text ++ newline ++ "```")
      else (stack, text)
  | [] => (stack, text)
  end.

(** Lines 139 to 145. *)
Fixpoint closeListLoop (nextNode : option Entry) (stack : list ListFrame)
    : list ListFrame :=
  match stack with
  | top :: below =>
      if closes nextNode (list_depth top)
      then closeListLoop nextNode below
      else stack
  | [] => stack
  end.

(** Lines 147 to 156. *)
Fixpoint closeQuoteLoop (nextNode : option Entry) (stack : list QuoteFrame)
    (text : string) : list QuoteFrame * string :=
  match stack with
  | top :: below =>
      if closes nextNode (quote_depth top)
      then closeQuoteLoop nextNode below (text ++ newline)
      else (stack, text)
  | [] => (stack, text)
  end.

Definition closeCode (nextNode : option Entry) (st : State) : State :=
  let (stack, t) := closeCodeLoop nextNode (codeStack st) (text st) in
  setText (setCodeStack st stack) t.

Definition closeList (nextNode : option Entry) (st : State) : State :=
  setListStack st (closeListLoop nextNode (listStack st)).

Definition closeQuote (nextNode : option Entry) (st : State) : State :=
  let (stack, t) := closeQuoteLoop nextNode (quoteStack st) (text st) in
  setText (setQuoteStack st stack) t.

Definition closeOut (nextNode : option Entry) (st : State) : State :=
  closeQuote nextNode (closeList nextNode (closeCode nextNode
    (closeLink nextNode st))).

(** ** The loop *)

(** The body of the [for] loop for the entry [e = nodes[i]] with
    [nextNode = nodes[i + 1]]. *)
Definition iteration (e : Entry) (nextNode : option Entry) (st : State)
  : Result State :=
  st' <- dispatch e st ;;
  Ok (closeOut nextNode st').

(** The turn of the loop at index [i]; past the end of the array the loop has
    stopped. *)
Definition iterationAt (nodes : list Entry) (i : nat) (st : State)
  : Result State :=
  match nth_error nodes i with
  | Some e => iteration e (nth_error nodes (S i)) st
  | None => Ok st
  end.

(** The state after the turns [i = 0 .. k - 1]. *)
Fixpoint runTo (nodes : list Entry) (k : nat) : Result State :=
  match k with
  | O => Ok initialState
  | S k' => st <- runTo nodes k' ;; iterationAt nodes k' st
  end.

(** [$convertToMarkdownString], with the result of [$dfs()] as argument. *)
Definition convertToMarkdownString (nodes : list Entry) : Result string :=
  st <- runTo nodes (List.length nodes) ;;
  Ok (text st).


(** ** The same function on an explicit heap

    The arrays and the frames of the function are objects of the JavaScript
    heap: [[]] and [{...}] allocate a new object, [push] and [pop] change the
    array they are called on, [++list.count] changes the frame the array
    refers to, and the heap outlives the call.  Below the heap is a list of
    objects, a reference is a position in it, and a computation takes the
    heap it finds and returns the heap it leaves, also when it raises. *)

Inductive Obj : Type :=
| ArrayObj (elements : list nat)   (* references, last element first *)
| LinkFrameObj (f : LinkFrame)
| ListFrameObj (f : ListFrame)
| QuoteFrameObj (f : QuoteFrame)
| CodeFrameObj (f : CodeFrame).

Definition Heap : Type := list Obj.

Definition M (A : Type) : Type := Heap -> Result A * Heap.

Definition ret {A : Type} (a : A) : M A := fun h => (Ok a, h).

Definition raise {A : Type} (e : Exception) : M A := fun h => (Throw e, h).

Definition bindM {A B : Type} (m : M A) (k : A -> M B) : M B :=
  fun h =>
    match m h with
    | (Ok a, h') => k a h'
    | (Throw e, h') => (Throw e, h')
    end.

Notation "x <~ m ;; k" := (bindM m (fun x => k))
  (at level 61, m at next level, right associativity).

(** A result of the functions without heap, inside a computation. *)
Definition lift {A : Type} (r : Result A) : M A := fun h => (r, h).

(** An object literal: the new object goes to the end of the heap. *)
Definition alloc (o : Obj) : M nat :=
  fun h => (Ok (List.length h), (h ++ [o])%list).

(** Reading through a reference; there is nothing behind a reference the
    heap does not have. *)
Definition load (a : nat) : M Obj :=
  fun h =>
    match nth_error h a with
    | Some o => (Ok o, h)
    | None => (Throw TypeError, h)
    end.

Fixpoint update (h : Heap) (a : nat) (o : Obj) : Heap :=
  match h, a with
  | [], _ => []
  | _ :: rest, O => o :: rest
  | x :: rest, S a' => x :: update rest a' o
  end.

(** Writing through a reference. *)
Definition store (a : nat) (o : Obj) : M unit :=
  fun h => (Ok tt, update h a o).

(** *** Arrays *)

Definition elementsOf (a : nat) : M (list nat) :=
  o <~ load a ;;
  match o with
  | ArrayObj l => ret l
  | _ => raise TypeError
  end.

(** [a.length] *)
Definition arrayLength (a : nat) : M nat :=
  l <~ elementsOf a ;; ret (List.length l).

(** [a[a.length - 1]]: [undefined], here [None], on an empty array. *)
Definition arrayLast (a : nat) : M (option nat) :=
  l <~ elementsOf a ;; ret (hd_error l).

(** [a.push(x)] *)
Definition arrayPush (a x : nat) : M unit :=
  l <~ elementsOf a ;; store a (ArrayObj (x :: l)).

(** [a.pop()] *)
Definition arrayPop (a : nat) : M (option nat) :=
  l <~ elementsOf a ;;
  match l with
  | [] => ret None
  | x :: rest => _ <~ store a (ArrayObj rest) ;; ret (Some x)
  end.

(** *** Frames, read through a reference that may be [undefined] *)

Definition loadLinkFrame (r : option nat) : M LinkFrame :=
  match r with
  | None => raise TypeError
  | Some x =>
      o <~ load x ;;
      match o with LinkFrameObj f => ret f | _ => raise TypeError end
  end.

Definition loadListFrame (r : option nat) : M ListFrame :=
  match r with
  | None => raise TypeError
  | Some x =>
      o <~ load x ;;
      match o with ListFrameObj f => ret f | _ => raise TypeError end
  end.

Definition loadQuoteFrame (r : option nat) : M QuoteFrame :=
  match r with
  | None => raise TypeError
  | Some x =>
      o <~ load x ;;
      match o with QuoteFrameObj f => ret f | _ => raise TypeError end
  end.

Definition loadCodeFrame (r : option nat) : M CodeFrame :=
  match r with
  | None => raise TypeError
  | Some x =>
      o <~ load x ;;
      match o with CodeFrameObj f => ret f | _ => raise TypeError end
  end.

(** *** The variables of one call *)

(** [text] and [shouldAppendFirstLineBreak] hold values; the four constants
    hold references to arrays. *)
Record Activation : Type := {
  textVar : string;
  flagVar : bool;
  closingBracketStackRef : nat;
  listStackRef : nat;
  quoteStackRef : nat;
  codeStackRef : nat
}.

Definition assignText (act : Activation) (t : string) : Activation :=
  {| textVar := t;
     flagVar := flagVar act;
     closingBracketStackRef := closingBracketStackRef act;
     listStackRef := listStackRef act;
     quoteStackRef := quoteStackRef act;
     codeStackRef := codeStackRef act |}.

Definition assignFlag (act : Activation) (b : bool) : Activation :=
  {| textVar := textVar act;
     flagVar := b;
     closingBracketStackRef := closingBracketStackRef act;
     listStackRef := listStackRef act;
     quoteStackRef := quoteStackRef act;
     codeStackRef := codeStackRef act |}.

(** *** Lines 53 to 116 on the heap *)

Definition heapEmitListItem (act : Activation) : M Activation :=
  let act := assignText act (appendLineBreak (textVar act) (flagVar act)) in
  listRef <~ arrayLast (listStackRef act) ;;
  length <~ arrayLength (listStackRef act) ;;
  indent <~ lift (jsRepeat " " ((Z.of_nat length - 1) * 4)) ;;
  list <~ loadListFrame listRef ;;
  if String.eqb (list_tag list) "ol" then
    let list' := {| count := S (count list);
                    list_depth := list_depth list;
                    list_tag := list_tag list |} in
    match listRef with
    | None => raise TypeError
    | Some x =>
        _ <~ store x (ListFrameObj list') ;;
        ret (assignText act
               (textVar act ++ indent ++ numberToString (count list')
                ++ ". "))
    end
  else if String.eqb (list_tag list) "ul" then
    ret (assignText act (textVar act ++ indent ++ "- "))
  else ret act.

Definition heapDispatch (e : Entry) (act : Activation) : M Activation :=
  match node e with
  | HeadingNode tag =>
      if String.eqb tag "h1" then
        let act :=
          assignText act (appendLineBreak (textVar act) (flagVar act)) in
        ret (assignText act (textVar act ++ "# "))
      else if String.eqb tag "h2" then
        let act :=
          assignText act (appendLineBreak (textVar act) (flagVar act)) in
        ret (assignText act (textVar act ++ "## "))
      else ret act
  | ListNode tag =>
      frame <~ alloc (ListFrameObj
                        {| count := 0; list_depth := depth e;
                           list_tag := tag |}) ;;
      _ <~ arrayPush (listStackRef act) frame ;;
      ret act
  | ListItemNode childrenSize firstChildIsList =>
      if negb (hasSingleListChild childrenSize firstChildIsList)
      then heapEmitListItem act
      else ret act
  | TextNode currentText format =>
      length <~ arrayLength (closingBracketStackRef act) ;;
      let insideLink := (0 <? length)%nat in
      ret (assignText act
             (textVar act ++ formatText insideLink currentText format))
  | ParagraphNode =>
      let act :=
        assignText act (appendLineBreak (textVar act) (flagVar act)) in
      ret (assignFlag act true)
  | QuoteNode =>
      let act :=
        assignText act (appendLineBreak (textVar act) (flagVar act)) in
      let act := assignText act (textVar act ++ "> ") in
      frame <~ alloc (QuoteFrameObj {| quote_depth := depth e |}) ;;
      _ <~ arrayPush (quoteStackRef act) frame ;;
      ret act
  | LineBreakNode =>
      ret (assignText act (appendLineBreak (textVar act) (flagVar act)))
  | CodeNode =>
      let act :=
        assignText act (appendLineBreak (textVar act) (flagVar act)) in
      let act := assignText act (textVar act ++ "```" ++ newline) in
      frame <~ alloc (CodeFrameObj {| code_depth := depth e |}) ;;
      _ <~ arrayPush (codeStackRef act) frame ;;
      ret act
  | LinkNode url =>
      let act := assignText act (textVar act ++ "[") in
      let endText := "](" ++ encodeURL url ++ ")" in
      frame <~ alloc (LinkFrameObj
                        {| link_depth := depth e; endText := endText |}) ;;
      _ <~ arrayPush (closingBracketStackRef act) frame ;;
      ret act
  | OtherNode => ret act
  end.

(** *** Lines 118 to 156 on the heap *)

(** [nextNode == null || nextNode.depth <= top.depth]: the frame is read
    only when there is a next entry. *)
Definition heapCloses (nextNode : option Entry) (topDepth : M Z) : M bool :=
  match nextNode with
  | None => ret true
  | Some n => d <~ topDepth ;; ret (depth n <=? d)%Z
  end.

Definition heapCloseLink (nextNode : option Entry) (act : Activation)
  : M Activation :=
  topOfBracketStack <~ arrayLast (closingBracketStackRef act) ;;
  match topOfBracketStack with
  | None => ret act
  | Some _ =>
      c <~ heapCloses nextNode
             (f <~ loadLinkFrame topOfBracketStack ;; ret (link_depth f)) ;;
      if c then
        popped <~ arrayPop (closingBracketStackRef act) ;;
        f <~ loadLinkFrame popped ;;
        ret (assignText act (textVar act ++ endText f))
      else ret act
  end.

(** A [while] loop pops one element a turn, so the length of the array when
    the loop is entered bounds the number of its turns. *)
Fixpoint heapCloseCodeLoop (turns : nat) (nextNode : option Entry)
    (a : nat) (t : string) : M string :=
  match turns with
  | O => ret t
  | S turns' =>
      length <~ arrayLength a ;;
      if (0 <? length)%nat then
        c <~ heapCloses nextNode
               (top <~ arrayLast a ;;
                f <~ loadCodeFrame top ;; ret (code_depth f)) ;;
        if c then
          _ <~ arrayPop a ;;
          heapCloseCodeLoop turns' nextNode a (t ++ newline ++ "```")
        else ret t
      else ret t
  end.

Fixpoint heapCloseListLoop (turns : nat) (nextNode : option Entry)
    (a : nat) : M unit :=
  match turns with
  | O => ret tt
  | S turns' =>
      length <~ arrayLength a ;;
      if (0 <? length)%nat then
        c <~ heapCloses nextNode
               (top <~ arrayLast a ;;
                f <~ loadListFrame top ;; ret (list_depth f)) ;;
        if c then
          _ <~ arrayPop a ;;
          heapCloseListLoop turns' nextNode a
        else ret tt
      else ret tt
  end.

Fixpoint heapCloseQuoteLoop (turns : nat) (nextNode : option Entry)
    (a : nat) (t : string) : M string :=
  match turns with
  | O => ret t
  | S turns' =>
      length <~ arrayLength a ;;
      if (0 <? length)%nat then
        c <~ heapCloses nextNode
               (top <~ arrayLast a ;;
                f <~ loadQuoteFrame top ;; ret (quote_depth f)) ;;
        if c then
          _ <~ arrayPop a ;;
          heapCloseQuoteLoop turns' nextNode a (t ++ newline)
        else ret t
      else ret t
  end.

Definition heapCloseOut (nextNode : option Entry) (act : Activation)
  : M Activation :=
  act <~ heapCloseLink nextNode act ;;
  turns <~ arrayLength (codeStackRef act) ;;
  t <~ heapCloseCodeLoop turns nextNode (codeStackRef act) (textVar act) ;;
  let act := assignText act t in
  turns <~ arrayLength (listStackRef act) ;;
  _ <~ heapCloseListLoop turns nextNode (listStackRef act) ;;
  turns <~ arrayLength (quoteStackRef act) ;;
  t <~ heapCloseQuoteLoop turns nextNode (quoteStackRef act) (textVar act) ;;
  ret (assignText act t).

(** *** The loop and the call on the heap *)

Definition heapIteration (e : Entry) (nextNode : option Entry)
    (act : Activation) : M Activation :=
  act <~ heapDispatch e act ;;
  heapCloseOut nextNode act.

Definition heapIterationAt (nodes : list Entry) (i : nat) (act : Activation)
  : M Activation :=
  match nth_error nodes i with
  | Some e => heapIteration e (nth_error nodes (S i)) act
  | None => ret act
  end.

Fixpoint heapRunTo (nodes : list Entry) (k : nat) (act : Activation)
  : M Activation :=
  match k with
  | O => ret act
  | S k' => act <~ heapRunTo nodes k' act ;; heapIterationAt nodes k' act
  end.

(** Lines 42 to 160: the four arrays are allocated by the call. *)
Definition heapConvertToMarkdownString (nodes : list Entry) : M string :=
  closingBracketStack <~ alloc (ArrayObj []) ;;
  listStack <~ alloc (ArrayObj []) ;;
  quoteStack <~ alloc (ArrayObj []) ;;
  codeStack <~ alloc (ArrayObj []) ;;
  act <~ heapRunTo nodes (List.length nodes)
           {| textVar := "";
              flagVar := false;
              closingBracketStackRef := closingBracketStack;
              listStackRef := listStack;
              quoteStackRef := quoteStack;
              codeStackRef := codeStack |} ;;
  ret (textVar act).

(** Calls one after the other: each finds the heap the one before left. *)
Fixpoint session (calls : list (list Entry)) (h : Heap)
  : list (Result string) :=
  match calls with
  | [] => []
  | nodes :: rest =>
      let (r, h') := heapConvertToMarkdownString nodes h in
      r :: session rest h'
  end.
(** * Notions of the specification

    The definitions below are not transcriptions of the source: they say, in
    terms of the input sequence alone, what the specification promises, and
    the theorems compare them with the functions above. *)

(** ** Escaping, character by character *)

(** A text run inside a link: each of the characters backslash, [[] and []]
    gets a backslash in front of it. *)
Definition escapeChar (a : ascii) : string :=
  if Ascii.eqb a backslash || Ascii.eqb a "[" || Ascii.eqb a "]"
  then String backslash (String a "")
  else String a "".

Fixpoint escapeLinkText (s : string) : string :=
  match s with
  | EmptyString => EmptyString
  | String a rest => escapeChar a ++ escapeLinkText rest
  end.

(** A link target: each [)] becomes [%29], every other character stays. *)
Definition percentEncodeChar (a : ascii) : string :=
  if Ascii.eqb a ")" then "%29" else String a "".

Fixpoint percentEncode (u : string) : string :=
  match u with
  | EmptyString => EmptyString
  | String a rest => percentEncodeChar a ++ percentEncode rest
  end.

Fixpoint countChar (c : ascii) (s : string) : nat :=
  match s with
  | EmptyString => 0
  | String a rest => (if Ascii.eqb a c then 1 else 0) + countChar c rest
  end.

(** The number of positions of [s] at which the text [p] starts. *)
Fixpoint occurrences (p : string) (s : string) : nat :=
  match s with
  | EmptyString => 0
  | String a rest => (if prefix p s then 1 else 0) + occurrences p rest
  end.

(** A marker on both sides when the flag is active. *)
Definition wrapIf (active : bool) (marker s : string) : string :=
  if active then marker ++ s ++ marker else s.

(** ** Stacks of frames that carry a depth *)

Section DepthStack.

Context {A : Type}.
Variable dep : A -> Z.

(** What a [while] loop of the close-out pass leaves on its stack. *)
Fixpoint popWhile (nextNode : option Entry) (s : list A) : list A :=
  match s with
  | top :: below =>
      if closes nextNode (dep top) then popWhile nextNode below else s
  | [] => []
  end.

(** The frames it pops, top first. *)
Fixpoint popped (nextNode : option Entry) (s : list A) : list A :=
  match s with
  | top :: below =>
      if closes nextNode (dep top) then top :: popped nextNode below else []
  | [] => []
  end.

(** A stack whose depths grow strictly from the bottom to the top. *)
Fixpoint descending (s : list A) : Prop :=
  match s with
  | [] => True
  | top :: below =>
      Forall (fun b => (dep b < dep top)%Z) below /\ descending below
  end.

End DepthStack.

Definition fence : string := newline ++ "```".

Definition openingFence : string := "```" ++ newline.

(** The text the [if] of lines 122 to 128 appends. *)
Definition linkClosing (nextNode : option Entry) (s : list LinkFrame)
  : string :=
  match s with
  | top :: _ => if closes nextNode (link_depth top) then endText top else ""
  | [] => ""
  end.

(** The link stack after that [if]. *)
Definition popOnce (nextNode : option Entry) (s : list LinkFrame)
  : list LinkFrame :=
  match s with
  | top :: below => if closes nextNode (link_depth top) then below else s
  | [] => []
  end.

(** ** Traversal positions *)

Definition ent (d : Z) (n : Node) : Entry := {| depth := d; node := n |}.

Definition depthAt (nodes : list Entry) (i : nat) : Z :=
  match nth_error nodes i with
  | Some e => depth e
  | None => 0%Z
  end.

Definition nodeAt (nodes : list Entry) (i : nat) : Node :=
  match nth_error nodes i with
  | Some e => node e
  | None => OtherNode
  end.

Definition isLink (n : Node) : bool :=
  match n with LinkNode _ => true | _ => false end.

Definition isList (n : Node) : bool :=
  match n with ListNode _ => true | _ => false end.

Definition isQuote (n : Node) : bool :=
  match n with QuoteNode => true | _ => false end.

Definition isCode (n : Node) : bool :=
  match n with CodeNode => true | _ => false end.

Definition isListItem (n : Node) : bool :=
  match n with ListItemNode _ _ => true | _ => false end.

(** The frame pushed at position [i] has met no closing position among
    [i .. k - 1]: at each of them there is a next entry, deeper than the
    frame. *)
Definition staysOpen (nodes : list Entry) (i k : nat) : bool :=
  forallb
    (fun j => negb (closes (nth_error nodes (S j)) (depthAt nodes i)))
    (seq i (k - i)).

(** The positions of the nodes of one kind whose frame is open after the
    turns [0 .. k - 1], oldest first. *)
Definition openFrames (kind : Node -> bool) (nodes : list Entry) (k : nat)
  : list nat :=
  filter (fun i => kind (nodeAt nodes i) && staysOpen nodes i k) (seq 0 k).

(** The same after the emission of turn [k], which may have pushed one. *)
Definition pending (kind : Node -> bool) (nodes : list Entry) (k : nat)
  : list nat :=
  (openFrames kind nodes k
     ++ (if kind (nodeAt nodes k) then [k] else []))%list.

(** The positions of the nodes of one kind whose FIRST closing position is
    [k]: the frame is open through [i .. k - 1], and the entry after [k] is
    missing or not deeper than the frame. *)
Definition closedAt (kind : Node -> bool) (nodes : list Entry) (k : nat)
  : list nat :=
  filter
    (fun i => kind (nodeAt nodes i) && staysOpen nodes i k
              && closes (nth_error nodes (S k)) (depthAt nodes i))
    (seq 0 (S k)).

(** ** The frames the specification expects on the stacks *)

Definition urlAt (nodes : list Entry) (i : nat) : string :=
  match nodeAt nodes i with LinkNode url => url | _ => "" end.

Definition tagAt (nodes : list Entry) (i : nat) : string :=
  match nodeAt nodes i with ListNode tag => tag | _ => "" end.

Definition linkFrameAt (nodes : list Entry) (i : nat) : LinkFrame :=
  {| link_depth := depthAt nodes i;
     endText := "](" ++ percentEncode (urlAt nodes i) ++ ")" |}.

Definition quoteFrameAt (nodes : list Entry) (i : nat) : QuoteFrame :=
  {| quote_depth := depthAt nodes i |}.

Definition codeFrameAt (nodes : list Entry) (i : nat) : CodeFrame :=
  {| code_depth := depthAt nodes i |}.

(** The innermost open list at a list item that gets a marker. *)
Definition markerOwner (nodes : list Entry) (j : nat) : option nat :=
  match nodeAt nodes j with
  | ListItemNode childrenSize firstChildIsList =>
      if hasSingleListChild childrenSize firstChildIsList then None
      else hd_error (rev (openFrames isList nodes j))
  | _ => None
  end.

(** The number of items before position [k] that took their marker from the
    list at position [i]. *)
Definition markersBefore (nodes : list Entry) (i k : nat) : nat :=
  List.length
    (filter
       (fun j => match markerOwner nodes j with
                 | Some o => (o =? i)%nat
                 | None => false
                 end)
       (seq 0 k)).

Definition listFrameAt (nodes : list Entry) (k i : nat) : ListFrame :=
  {| count := if String.eqb (tagAt nodes i) "ol"
              then markersBefore nodes i k else 0;
     list_depth := depthAt nodes i;
     list_tag := tagAt nodes i |}.

(** ** Well-formed input *)

(** Depths of a pre-order walk: never negative, and a step down the tree
    goes down one level. *)
Fixpoint preorderFrom (d : Z) (l : list Entry) : bool :=
  match l with
  | [] => true
  | e :: rest =>
      (0 <=? depth e)%Z && (depth e <=? d + 1)%Z && preorderFrom (depth e) rest
  end.

Definition preorder (nodes : list Entry) : bool :=
  match nodes with
  | [] => true
  | e :: rest => (0 <=? depth e)%Z && preorderFrom (depth e) rest
  end.

Definition isNil {A : Type} (l : list A) : bool :=
  match l with [] => true | _ => false end.

(** Every list item lies in the subtree of a list. *)
Definition listItemsEnclosed (nodes : list Entry) : bool :=
  forallb
    (fun k => negb (isListItem (nodeAt nodes k))
              || negb (isNil (openFrames isList nodes k)))
    (seq 0 (List.length nodes)).

Definition wellFormed (nodes : list Entry) : bool :=
  preorder nodes && listItemsEnclosed nodes.

(** No link lies in the subtree of another link. *)
Definition linksNotNested (nodes : list Entry) : bool :=
  forallb
    (fun k => negb (isLink (nodeAt nodes k))
              || isNil (openFrames isLink nodes k))
    (seq 0 (List.length nodes)).

(** ** What the stacks hold after [k] turns *)

Definition StacksAt (nodes : list Entry) (k : nat) (st : State) : Prop :=
  codeStack st = map (codeFrameAt nodes) (rev (openFrames isCode nodes k))
  /\ quoteStack st = map (quoteFrameAt nodes) (rev (openFrames isQuote nodes k))
  /\ listStack st = map (listFrameAt nodes k) (rev (openFrames isList nodes k)).

(** The same between the emission and the close-out pass of turn [k]. *)
Definition StacksPending (nodes : list Entry) (k : nat) (st : State) : Prop :=
  codeStack st = map (codeFrameAt nodes) (rev (pending isCode nodes k))
  /\ quoteStack st = map (quoteFrameAt nodes) (rev (pending isQuote nodes k))
  /\ listStack st
     = map (listFrameAt nodes (S k)) (rev (pending isList nodes k)).

(** The closing texts of the links whose first closing position is [k]. *)
Definition linkClosingsAt (nodes : list Entry) (k : nat) : string :=
  fold_right append ""
    (map (fun i => endText (linkFrameAt nodes i))
       (rev (closedAt isLink nodes k))).

(** The frame pushed at position [i] closes at position [k] and not
    before. *)
Definition firstClosing (nodes : list Entry) (i k : nat) : Prop :=
  i <= k
  /\ staysOpen nodes i k = true
  /\ closes (nth_error nodes (S k)) (depthAt nodes i) = true.

(** The text a block-level node puts after the line break it asks for. *)
Definition blockMarker (n : Node) : option string :=
  match n with
  | HeadingNode tag =>
      if String.eqb tag "h1" then Some "# "
      else if String.eqb tag "h2" then Some "## "
      else None
  | ParagraphNode => Some ""
  | QuoteNode => Some "> "
  | LineBreakNode => Some ""
  | CodeNode => Some openingFence
  | _ => None
  end.

(** ** Sample documents *)

(** A quote, then a paragraph. *)
Definition sampleQuote : list Entry :=
  [ ent 0 OtherNode;
    ent 1 QuoteNode; ent 2 (TextNode "q" []);
    ent 1 ParagraphNode; ent 2 (TextNode "p" [bold; code]) ].

(** Two ordered lists, the first with a nested unordered list. *)
Definition sampleLists : list Entry :=
  [ ent 0 OtherNode;
    ent 1 (ListNode "ol");
    ent 2 (ListItemNode 1 false); ent 3 (TextNode "a" []);
    ent 2 (ListItemNode 1 true);
    ent 3 (ListNode "ul");
    ent 4 (ListItemNode 1 false); ent 5 (TextNode "b" []);
    ent 2 (ListItemNode 1 false); ent 3 (TextNode "c" []);
    ent 1 (ListNode "ol");
    ent 2 (ListItemNode 1 false); ent 3 (TextNode "d" []) ].

(** An empty code block, a code block with a link in it, and a code block
    that ends the document. *)
Definition sampleCode : list Entry :=
  [ ent 0 OtherNode;
    ent 1 CodeNode;
    ent 1 CodeNode; ent 2 (LinkNode "u)v"); ent 3 (TextNode "x[y]" []);
    ent 1 CodeNode; ent 2 (TextNode "z" []) ].

(** A link inside a link, inside a code block. *)
Definition sampleNestedLinks : list Entry :=
  [ ent 0 OtherNode;
    ent 1 CodeNode;
    ent 2 (LinkNode "a"); ent 3 (LinkNode "b"); ent 4 (TextNode "x" []);
    ent 1 ParagraphNode; ent 2 (TextNode "y" []) ].


(** A link inside a link at the end of the document. *)
Definition sampleUnclosedLink : list Entry :=
  [ ent 0 OtherNode;
    ent 1 ParagraphNode;
    ent 2 (LinkNode "a"); ent 3 (LinkNode "b"); ent 4 (TextNode "x" []) ].

(** A quote inside a quote, then a paragraph. *)
Definition sampleNestedQuote : list Entry :=
  [ ent 0 OtherNode;
    ent 1 QuoteNode; ent 2 QuoteNode; ent 3 (TextNode "q" []);
    ent 1 ParagraphNode; ent 2 (TextNode "p" []) ].

(** ** Further notions *)

(** Reading an escaped text back: a backslash is dropped and the character
    after it is kept as it is. *)
Fixpoint unescape (s : string) : string :=
  match s with
  | EmptyString => EmptyString
  | String a rest =>
      if Ascii.eqb a backslash then
        match rest with
        | EmptyString => EmptyString
        | String b rest' => String b (unescape rest')
        end
      else String a (unescape rest)
  end.

(** A list item that asks for a marker, hence for the list on top of the
    list stack. *)
Definition needsList (n : Node) : bool :=
  match n with
  | ListItemNode childrenSize firstChildIsList =>
      negb (hasSingleListChild childrenSize firstChildIsList)
  | _ => false
  end.

(** Every list item that asks for a marker lies in the subtree of a list. *)
Definition markersHaveList (nodes : list Entry) : bool :=
  forallb
    (fun k => negb (needsList (nodeAt nodes k))
              || negb (isNil (openFrames isList nodes k)))
    (seq 0 (List.length nodes)).

Definition isParagraph (n : Node) : bool :=
  match n with ParagraphNode => true | _ => false end.

(** A list item met before any list. *)
Definition sampleStrayItem : list Entry :=
  [ ent 0 OtherNode;
    ent 1 ParagraphNode; ent 2 (TextNode "p" []);
    ent 1 (ListItemNode 1 false); ent 2 (TextNode "a" []) ].

(** An unordered list in an unordered list. *)
Definition sampleBullets : list Entry :=
  [ ent 0 OtherNode;
    ent 1 (ListNode "ul");
    ent 2 (ListItemNode 1 false); ent 3 (TextNode "a" []);
    ent 2 (ListItemNode 1 true);
    ent 3 (ListNode "ul");
    ent 4 (ListItemNode 1 false); ent 5 (TextNode "b" []) ].

(** A paragraph with a text run, a link and a text run. *)
Definition sampleLink : list Entry :=
  [ ent 0 OtherNode;
    ent 1 ParagraphNode;
    ent 2 (TextNode "a[" []);
    ent 2 (LinkNode "u"); ent 3 (TextNode "b]" [bold]);
    ent 2 (TextNode "c" []) ].

(** ** The heap of a call, seen as the state of the function *)

(** The objects [P] speaks of are the same in [h'] as in [h]. *)
Definition keeps (P : nat -> Prop) (h h' : Heap) : Prop :=
  forall x o, P x -> nth_error h x = Some o -> nth_error h' x = Some o.

(** The array behind [a] refers, last element first, to frames with the
    values [fs]; the frames are different objects, and neither the array nor
    the frames were there before the call, whose heap had [base] objects. *)
Definition holds {F : Type} (wrap : F -> Obj) (base : nat) (h : Heap)
    (a : nat) (fs : list F) : Prop :=
  base <= a
  /\ exists refs,
       nth_error h a = Some (ArrayObj refs)
       /\ Forall2 (fun x f => nth_error h x = Some (wrap f)) refs fs
       /\ NoDup refs
       /\ Forall (fun x => base <= x) refs.

(** The variables [act] and the heap [h] of a call that found [base]
    objects represent the state [st]. *)
Definition Rep (base : nat) (act : Activation) (h : Heap) (st : State)
  : Prop :=
  textVar act = text st
  /\ flagVar act = shouldAppendFirstLineBreak st
  /\ holds LinkFrameObj base h (closingBracketStackRef act)
       (closingBracketStack st)
  /\ holds ListFrameObj base h (listStackRef act) (listStack st)
  /\ holds QuoteFrameObj base h (quoteStackRef act) (quoteStack st)
  /\ holds CodeFrameObj base h (codeStackRef act) (codeStack st)
  /\ NoDup [closingBracketStackRef act; listStackRef act;
            quoteStackRef act; codeStackRef act].

(** A heap left by earlier calls. *)
Definition sampleHeap : Heap :=
  [ ArrayObj [1];
    ListFrameObj {| count := 7; list_depth := 1; list_tag := "ol" |};
    CodeFrameObj {| code_depth := 3 |} ].

(** The computation [m], started on the heap [h], does what the result [r]
    of the function without heap says: it returns variables and a heap that
    represent the state returned, or raises the same exception; either way
    it leaves the objects of the heap before the call as they were. *)
Definition simulates (base : nat) (m : M Activation) (r : Result State)
    (h : Heap) : Prop :=
  exists h',
    keeps (fun x => x < base) h h'
    /\ match r with
       | Ok st' => exists act', m h = (Ok act', h') /\ Rep base act' h' st'
       | Throw e => m h = (Throw e, h')
       end.

(** ** What is written after a quote *)



(** A quote, then a list. *)
Definition sampleQuoteList : list Entry :=
  [ ent 0 OtherNode;
    ent 1 QuoteNode; ent 2 (TextNode "q" []);
    ent 1 (ListNode "ul");
    ent 2 (ListItemNode 1 false); ent 3 (TextNode "a" []) ].


(** * Properties *)

(** ** Strings *)

Lemma append_nil_r (s : string) : s ++ "" = s.
Proof. induction s as [|a s IH]; simpl; [reflexivity | now rewrite IH]. Qed.

Lemma append_assoc (a b c : string) : (a ++ b) ++ c = a ++ (b ++ c).
Proof. induction a as [|x a IH]; simpl; [reflexivity | now rewrite IH]. Qed.

Lemma prefix_append (a s : string) : prefix a (a ++ s) = true.
Proof.
  induction a as [|x a IH]; simpl.
  - now destruct s.
  - destruct (ascii_dec x x) as [_|n]; [exact IH | now elim n].
Qed.

Lemma prefix_refl (a : string) : prefix a a = true.
Proof. rewrite <- (append_nil_r a) at 2. apply prefix_append. Qed.

Lemma replaceAll_append (c : ascii) (r a b : string) :
  replaceAll c r (a ++ b) = replaceAll c r a ++ replaceAll c r b.
Proof.
  induction a as [|x a IH]; simpl; [reflexivity|].
  destruct (Ascii.eqb x c); rewrite IH; [now rewrite append_assoc | reflexivity].
Qed.

(** ** Escaping *)

Lemma encodeURLTitle_escapeLinkText (s : string) :
  encodeURLTitle s = escapeLinkText s.
Proof.
  unfold encodeURLTitle.
  induction s as [|a s IH]; [reflexivity|].
  cbn [replaceAll escapeLinkText]. unfold escapeChar.
  destruct (Ascii.eqb a backslash) eqn:Eb.
  - apply Ascii.eqb_eq in Eb. subst a.
    rewrite !replaceAll_append, IH. reflexivity.
  - cbn [replaceAll orb]. destruct (Ascii.eqb a "[") eqn:El.
    + apply Ascii.eqb_eq in El. subst a.
      rewrite replaceAll_append, IH. reflexivity.
    + cbn [replaceAll orb]. destruct (Ascii.eqb a "]") eqn:Er.
      * apply Ascii.eqb_eq in Er. subst a. rewrite IH. reflexivity.
      * rewrite IH. reflexivity.
Qed.

Lemma encodeURL_percentEncode (u : string) : encodeURL u = percentEncode u.
Proof.
  unfold encodeURL.
  induction u as [|a u IH]; [reflexivity|].
  cbn [replaceAll percentEncode]. unfold percentEncodeChar.
  destruct (Ascii.eqb a ")"); now rewrite IH.
Qed.

Lemma encodeURL_no_paren (u : string) : countChar ")" (encodeURL u) = 0.
Proof.
  unfold encodeURL.
  induction u as [|a u IH]; [reflexivity|].
  cbn [replaceAll]. destruct (Ascii.eqb a ")") eqn:E; cbn.
  - exact IH.
  - now rewrite E, IH.
Qed.

Lemma prefix_nil (s : string) : prefix "" s = true.
Proof. now destruct s. Qed.

Lemma encodeURL_9 (u : string) : prefix "9" (encodeURL u) = prefix "9" u.
Proof.
  unfold encodeURL. destruct u as [|a u]; [reflexivity|].
  cbn [replaceAll]. destruct (Ascii.eqb a ")") eqn:Ea.
  - apply Ascii.eqb_eq in Ea. now subst a.
  - cbn [prefix]. destruct (ascii_dec "9" a); [|reflexivity].
    now rewrite !prefix_nil.
Qed.

Lemma encodeURL_29 (u : string) :
  prefix "29" (encodeURL u) = prefix "29" u.
Proof.
  destruct u as [|a u]; [reflexivity|].
  unfold encodeURL. cbn [replaceAll]. destruct (Ascii.eqb a ")") eqn:Ea.
  - apply Ascii.eqb_eq in Ea. now subst a.
  - cbn [prefix]. destruct (ascii_dec "2" a); [|reflexivity].
    apply encodeURL_9.
Qed.

Lemma encodeURL_occurrences (u : string) :
  occurrences "%29" (encodeURL u) = occurrences "%29" u + countChar ")" u.
Proof.
  induction u as [|a u IH]; [reflexivity|].
  unfold encodeURL in *. cbn [replaceAll countChar].
  destruct (Ascii.eqb a ")") eqn:Ea.
  - apply Ascii.eqb_eq in Ea. subst a. cbn. rewrite IH. cbn.
    rewrite prefix_nil. lia.
  - cbn [occurrences]. rewrite IH.
    assert (H : prefix "%29" (String a (replaceAll ")" "%29" u))
                = prefix "%29" (String a u)).
    { cbn [prefix]. destruct (ascii_dec "%" a); [|reflexivity].
      apply encodeURL_29. }
    rewrite H. lia.
Qed.

(** ** The three [while] loops pop a prefix of the stack *)

Section DepthStackFacts.

Context {A : Type}.
Variable dep : A -> Z.

Lemma popped_popWhile (nextNode : option Entry) (s : list A) :
  (popped dep nextNode s ++ popWhile dep nextNode s)%list = s.
Proof.
  induction s as [|a s IH]; simpl; [reflexivity|].
  destruct (closes nextNode (dep a)); simpl; [now rewrite IH | reflexivity].
Qed.

Lemma closes_mono (nextNode : option Entry) (d d' : Z) :
  (d <= d')%Z -> closes nextNode d = true -> closes nextNode d' = true.
Proof.
  destruct nextNode as [n|]; simpl; [|reflexivity].
  intros Hle H. apply Z.leb_le in H. apply Z.leb_le. lia.
Qed.

Lemma popWhile_filter (nextNode : option Entry) (s : list A) :
  descending dep s ->
  popWhile dep nextNode s
  = filter (fun a => negb (closes nextNode (dep a))) s.
Proof.
  induction s as [|a s IH]; simpl; [reflexivity|].
  intros [Hall Hs]. destruct (closes nextNode (dep a)) eqn:E; simpl.
  - now apply IH.
  - f_equal. symmetry. apply forallb_filter_id.
    apply forallb_forall. intros b Hb.
    rewrite Forall_forall in Hall. specialize (Hall b Hb).
    destruct (closes nextNode (dep b)) eqn:Eb; [|reflexivity].
    rewrite (closes_mono nextNode (dep b) (dep a)) in E; [discriminate|lia|exact Eb].
Qed.

Lemma popped_filter (nextNode : option Entry) (s : list A) :
  descending dep s ->
  popped dep nextNode s = filter (fun a => closes nextNode (dep a)) s.
Proof.
  induction s as [|a s IH]; simpl; [reflexivity|].
  intros [Hall Hs]. destruct (closes nextNode (dep a)) eqn:E; simpl.
  - f_equal. now apply IH.
  - symmetry.
    rewrite (filter_ext_in _ (fun _ => false)); [apply filter_false|].
    intros b Hb. rewrite Forall_forall in Hall. specialize (Hall b Hb).
    destruct (closes nextNode (dep b)) eqn:Eb; [|reflexivity].
    rewrite (closes_mono nextNode (dep b) (dep a)) in E; [discriminate|lia|exact Eb].
Qed.

Lemma descending_popWhile (nextNode : option Entry) (s : list A) :
  descending dep s -> descending dep (popWhile dep nextNode s).
Proof.
  induction s as [|a s IH]; simpl; [trivial|].
  intros [Hall Hs]. destruct (closes nextNode (dep a)); simpl; auto.
Qed.

End DepthStackFacts.

(** ** The close-out pass, loop by loop *)

Lemma closeCodeLoop_spec (nextNode : option Entry) (s : list CodeFrame)
    (t : string) :
  closeCodeLoop nextNode s t
  = (popWhile code_depth nextNode s,
     t ++ repeatString fence
            (List.length (popped code_depth nextNode s))).
Proof.
  revert t. induction s as [|a s IH]; intros t; simpl.
  - now rewrite append_nil_r.
  - destruct (closes nextNode (code_depth a)); simpl.
    + rewrite IH. f_equal. apply append_assoc.
    + now rewrite append_nil_r.
Qed.

Lemma closeQuoteLoop_spec (nextNode : option Entry) (s : list QuoteFrame)
    (t : string) :
  closeQuoteLoop nextNode s t
  = (popWhile quote_depth nextNode s,
     t ++ repeatString newline
            (List.length (popped quote_depth nextNode s))).
Proof.
  revert t. induction s as [|a s IH]; intros t; simpl.
  - now rewrite append_nil_r.
  - destruct (closes nextNode (quote_depth a)); simpl.
    + rewrite IH. f_equal. apply append_assoc.
    + now rewrite append_nil_r.
Qed.

Lemma closeListLoop_spec (nextNode : option Entry) (s : list ListFrame) :
  closeListLoop nextNode s = popWhile list_depth nextNode s.
Proof.
  induction s as [|a s IH]; simpl; [reflexivity|].
  now destruct (closes nextNode (list_depth a)).
Qed.

Lemma closeLink_spec (nextNode : option Entry) (st : State) :
  closeLink nextNode st
  = setText (setClosingBracketStack st
               (popOnce nextNode (closingBracketStack st)))
            (text st ++ linkClosing nextNode (closingBracketStack st)).
Proof.
  unfold closeLink, popOnce, linkClosing.
  destruct st as [t f ls li q c]; simpl.
  destruct ls as [|top below]; simpl.
  - unfold setText, setClosingBracketStack; simpl. now rewrite append_nil_r.
  - destruct (closes nextNode (link_depth top)); [reflexivity|].
    unfold setText, setClosingBracketStack; simpl. now rewrite append_nil_r.
Qed.

Lemma closeOut_spec (nextNode : option Entry) (st : State) :
  closeOut nextNode st
  = {| text :=
         text st
         ++ linkClosing nextNode (closingBracketStack st)
         ++ repeatString fence
              (List.length (popped code_depth nextNode (codeStack st)))
         ++ repeatString newline
              (List.length (popped quote_depth nextNode (quoteStack st)));
       shouldAppendFirstLineBreak := shouldAppendFirstLineBreak st;
       closingBracketStack := popOnce nextNode (closingBracketStack st);
       listStack := popWhile list_depth nextNode (listStack st);
       quoteStack := popWhile quote_depth nextNode (quoteStack st);
       codeStack := popWhile code_depth nextNode (codeStack st) |}.
Proof.
  unfold closeOut. rewrite closeLink_spec.
  unfold closeQuote, closeList, closeCode.
  destruct st as [t f ls li q c]; cbn -[append].
  rewrite closeCodeLoop_spec. cbn -[append].
  rewrite closeQuoteLoop_spec, closeListLoop_spec. cbn -[append].
  unfold setText, setQuoteStack; cbn -[append].
  now rewrite !append_assoc.
Qed.

(** ** Lists *)

Lemma filter_filter {A : Type} (f g : A -> bool) (l : list A) :
  filter f (filter g l) = filter (fun x => g x && f x) l.
Proof.
  induction l as [|a l IH]; simpl; [reflexivity|].
  destruct (g a); simpl; [destruct (f a)|]; now rewrite IH.
Qed.

Lemma filter_split_length {A : Type} (f : A -> bool) (l : list A) :
  List.length (filter f l) + List.length (filter (fun x => negb (f x)) l)
  = List.length l.
Proof.
  induction l as [|a l IH]; simpl; [reflexivity|].
  destruct (f a); simpl; lia.
Qed.

Lemma descending_filter {A : Type} (dep : A -> Z) (f : A -> bool)
    (s : list A) :
  descending dep s -> descending dep (filter f s).
Proof.
  induction s as [|a s IH]; simpl; [trivial|].
  intros [Hall Hs]. destruct (f a); simpl; [|now apply IH].
  split; [|now apply IH].
  apply Forall_forall. intros b Hb. apply filter_In in Hb.
  rewrite Forall_forall in Hall. now apply Hall.
Qed.

Lemma popWhile_map {A B : Type} (dep : B -> Z) (dep' : A -> Z) (F : A -> B)
    (nextNode : option Entry) (l : list A) :
  (forall i, dep (F i) = dep' i) ->
  popWhile dep nextNode (map F l) = map F (popWhile dep' nextNode l).
Proof.
  intros H. induction l as [|a l IH]; simpl; [reflexivity|].
  rewrite H. now destruct (closes nextNode (dep' a)).
Qed.

Lemma popped_map {A B : Type} (dep : B -> Z) (dep' : A -> Z) (F : A -> B)
    (nextNode : option Entry) (l : list A) :
  (forall i, dep (F i) = dep' i) ->
  popped dep nextNode (map F l) = map F (popped dep' nextNode l).
Proof.
  intros H. induction l as [|a l IH]; simpl; [reflexivity|].
  rewrite H. destruct (closes nextNode (dep' a)); simpl; [now rewrite IH|reflexivity].
Qed.

(** ** Positions of the traversal *)

Section Positions.

Variable nodes : list Entry.

Lemma depthAt_nth (k : nat) (e : Entry) :
  nth_error nodes k = Some e -> depthAt nodes k = depth e.
Proof. unfold depthAt. now intros ->. Qed.

Lemma nodeAt_nth (k : nat) (e : Entry) :
  nth_error nodes k = Some e -> nodeAt nodes k = node e.
Proof. unfold nodeAt. now intros ->. Qed.

Lemma staysOpen_refl (k : nat) : staysOpen nodes k k = true.
Proof. unfold staysOpen. now rewrite Nat.sub_diag. Qed.

Lemma staysOpen_S (i k : nat) :
  i <= k ->
  staysOpen nodes i (S k)
  = staysOpen nodes i k
    && negb (closes (nth_error nodes (S k)) (depthAt nodes i)).
Proof.
  intros Hik. unfold staysOpen.
  replace (S k - i) with (S (k - i)) by lia.
  rewrite seq_S, forallb_app. simpl.
  replace (i + (k - i)) with k by lia.
  now rewrite andb_true_r.
Qed.

(** An open frame is less deep than every entry visited since its push. *)
Lemma staysOpen_lt (i j k : nat) :
  staysOpen nodes i k = true -> i < j -> j <= k ->
  (depthAt nodes i < depthAt nodes j)%Z /\ j < List.length nodes.
Proof.
  unfold staysOpen. intros H Hij Hjk.
  rewrite forallb_forall in H.
  assert (Hin : In (j - 1) (seq i (k - i))) by (apply in_seq; lia).
  specialize (H _ Hin). replace (S (j - 1)) with j in H by lia.
  destruct (nth_error nodes j) as [n|] eqn:E; simpl in H; [|discriminate].
  split.
  - unfold depthAt at 2. rewrite E.
    apply negb_true_iff, Z.leb_gt in H. exact H.
  - apply nth_error_Some. now rewrite E.
Qed.

Section OneKind.

Variable kind : Node -> bool.

Lemma openFrames_0 : openFrames kind nodes 0 = [].
Proof. reflexivity. Qed.

Lemma openFrames_In (i k : nat) :
  In i (openFrames kind nodes k)
  <-> i < k /\ kind (nodeAt nodes i) = true /\ staysOpen nodes i k = true.
Proof.
  unfold openFrames. rewrite filter_In, in_seq, andb_true_iff.
  intuition lia.
Qed.

Lemma openFrames_S (k : nat) :
  openFrames kind nodes (S k)
  = filter (fun i => negb (closes (nth_error nodes (S k)) (depthAt nodes i)))
      (pending kind nodes k).
Proof.
  unfold pending, openFrames.
  rewrite seq_S, !filter_app, filter_filter. simpl. f_equal.
  - apply filter_ext_in. intros i Hi. apply in_seq in Hi.
    rewrite staysOpen_S by lia. now rewrite andb_assoc.
  - rewrite staysOpen_S, staysOpen_refl by lia.
    destruct (kind (nodeAt nodes k)); reflexivity.
Qed.

Lemma closedAt_pending (k : nat) :
  closedAt kind nodes k
  = filter (fun i => closes (nth_error nodes (S k)) (depthAt nodes i))
      (pending kind nodes k).
Proof.
  unfold closedAt, pending, openFrames.
  rewrite seq_S, !filter_app, filter_filter. simpl. f_equal.
  rewrite staysOpen_refl.
  destruct (kind (nodeAt nodes k)); reflexivity.
Qed.

Lemma closedAt_In (i k : nat) :
  In i (closedAt kind nodes k)
  <-> i <= k /\ kind (nodeAt nodes i) = true /\ staysOpen nodes i k = true
      /\ closes (nth_error nodes (S k)) (depthAt nodes i) = true.
Proof.
  unfold closedAt. rewrite filter_In, in_seq, !andb_true_iff.
  intuition lia.
Qed.

Lemma openFrames_lt (i k : nat) :
  In i (openFrames kind nodes k) ->
  (depthAt nodes i < depthAt nodes k)%Z /\ k < List.length nodes.
Proof.
  intros H. apply openFrames_In in H. destruct H as (Hik & _ & Ho).
  now apply (staysOpen_lt i k k).
Qed.

Lemma openFrames_descending (k : nat) :
  descending (depthAt nodes) (rev (openFrames kind nodes k)).
Proof.
  induction k as [|k IH]; [exact I|].
  rewrite openFrames_S, <- filter_rev. apply descending_filter.
  unfold pending. rewrite rev_app_distr.
  destruct (kind (nodeAt nodes k)); simpl; [|exact IH].
  split; [|exact IH].
  apply Forall_forall. intros i Hi. apply in_rev in Hi.
  now apply openFrames_lt.
Qed.

Lemma pending_descending (k : nat) :
  descending (depthAt nodes) (rev (pending kind nodes k)).
Proof.
  unfold pending. rewrite rev_app_distr.
  destruct (kind (nodeAt nodes k)); simpl; [|apply openFrames_descending].
  split; [|apply openFrames_descending].
  apply Forall_forall. intros i Hi. apply in_rev in Hi.
  now apply openFrames_lt.
Qed.

(** One [while] loop on the stack the specification expects gives the stack
    it expects one turn later, and pops the frames that close at [k]. *)
Lemma popWhile_pending {A : Type} (dep : A -> Z) (F : nat -> A) (k : nat) :
  (forall i, dep (F i) = depthAt nodes i) ->
  popWhile dep (nth_error nodes (S k)) (map F (rev (pending kind nodes k)))
  = map F (rev (openFrames kind nodes (S k))).
Proof.
  intros H. rewrite (popWhile_map dep (depthAt nodes) F _ _ H).
  rewrite popWhile_filter by apply pending_descending.
  now rewrite filter_rev, <- openFrames_S.
Qed.

Lemma popped_pending {A : Type} (dep : A -> Z) (F : nat -> A) (k : nat) :
  (forall i, dep (F i) = depthAt nodes i) ->
  popped dep (nth_error nodes (S k)) (map F (rev (pending kind nodes k)))
  = map F (rev (closedAt kind nodes k)).
Proof.
  intros H. rewrite (popped_map dep (depthAt nodes) F _ _ H).
  rewrite popped_filter by apply pending_descending.
  now rewrite filter_rev, <- closedAt_pending.
Qed.

End OneKind.

End Positions.

(** ** The emission of one turn *)

Lemma jsRepeat_indent (s : string) (n : nat) :
  jsRepeat s ((Z.of_nat (S n) - 1) * 4) = Ok (repeatString s (n * 4)).
Proof.
  unfold jsRepeat.
  destruct ((Z.of_nat (S n) - 1) * 4 <? 0)%Z eqn:E.
  - apply Z.ltb_lt in E. lia.
  - do 2 f_equal. lia.
Qed.

(** The list-item branch: it raises exactly on an empty list stack, and
    otherwise writes the marker of the list on top of the stack. *)
Lemma emitListItem_spec (st : State) :
  emitListItem st
  = match listStack st with
    | [] => Throw RangeError
    | top :: below =>
        let t := appendLineBreak (text st) (shouldAppendFirstLineBreak st) in
        let indent := repeatString " " (List.length below * 4) in
        if String.eqb (list_tag top) "ol" then
          Ok {| text := t ++ indent ++ numberToString (S (count top)) ++ ". ";
                shouldAppendFirstLineBreak := shouldAppendFirstLineBreak st;
                closingBracketStack := closingBracketStack st;
                listStack := {| count := S (count top);
                                list_depth := list_depth top;
                                list_tag := list_tag top |} :: below;
                quoteStack := quoteStack st;
                codeStack := codeStack st |}
        else if String.eqb (list_tag top) "ul" then
          Ok (setText st (t ++ indent ++ "- "))
        else Ok (setText st t)
    end.
Proof.
  unfold emitListItem. destruct st as [t f ls li q c]. cbn -[append Z.mul Z.sub Z.of_nat].
  destruct li as [|top below].
  - reflexivity.
  - cbn [List.length]. rewrite jsRepeat_indent. cbn -[append].
    destruct (String.eqb (list_tag top) "ol"); [reflexivity|].
    destruct (String.eqb (list_tag top) "ul"); reflexivity.
Qed.

Ltac dispatch_cases H :=
  unfold dispatch in H;
  repeat match type of H with
         | context [match node ?e with _ => _ end] => destruct (node e)
         | context [if ?b then _ else _] => destruct b
         end;
  try rewrite emitListItem_spec in H;
  repeat match type of H with
         | context [match ?l with [] => _ | _ :: _ => _ end] =>
             destruct l eqn:?
         | context [if ?b then _ else _] => destruct b
         end;
  cbn -[append] in H;
  try discriminate H;
  injection H as H; subst.

Lemma dispatch_codeStack (e : Entry) (st mid : State) :
  dispatch e st = Ok mid ->
  codeStack mid
  = if isCode (node e) then {| code_depth := depth e |} :: codeStack st
    else codeStack st.
Proof. intros H. dispatch_cases H; reflexivity. Qed.

Lemma dispatch_quoteStack (e : Entry) (st mid : State) :
  dispatch e st = Ok mid ->
  quoteStack mid
  = if isQuote (node e) then {| quote_depth := depth e |} :: quoteStack st
    else quoteStack st.
Proof. intros H. dispatch_cases H; reflexivity. Qed.

Lemma dispatch_closingBracketStack (e : Entry) (st mid : State) :
  dispatch e st = Ok mid ->
  closingBracketStack mid
  = match node e with
    | LinkNode url =>
        {| link_depth := depth e; endText := "](" ++ encodeURL url ++ ")" |}
          :: closingBracketStack st
    | _ => closingBracketStack st
    end.
Proof. intros H. dispatch_cases H; reflexivity. Qed.

Lemma dispatch_flag (e : Entry) (st mid : State) :
  dispatch e st = Ok mid ->
  shouldAppendFirstLineBreak mid
  = match node e with
    | ParagraphNode => true
    | _ => shouldAppendFirstLineBreak st
    end.
Proof. intros H. dispatch_cases H; reflexivity. Qed.

(** ** Counters of the list frames *)

Section Counters.

Variable nodes : list Entry.

Lemma markerOwner_In (j o : nat) :
  markerOwner nodes j = Some o -> In o (openFrames isList nodes j).
Proof.
  unfold markerOwner. destruct (nodeAt nodes j); try discriminate.
  destruct (hasSingleListChild _ _); [discriminate|].
  destruct (rev (openFrames isList nodes j)) as [|i0 rest] eqn:E;
    [discriminate|].
  intros H. injection H as <-. apply in_rev. rewrite E. now left.
Qed.

Lemma markerOwner_lt (j o : nat) : markerOwner nodes j = Some o -> o < j.
Proof.
  intros H. apply markerOwner_In, openFrames_In in H. tauto.
Qed.

Lemma markersBefore_S (i k : nat) :
  markersBefore nodes i (S k)
  = markersBefore nodes i k
    + match markerOwner nodes k with
      | Some o => if (o =? i)%nat then 1 else 0
      | None => 0
      end.
Proof.
  unfold markersBefore. rewrite seq_S, filter_app, length_app. simpl.
  destruct (markerOwner nodes k) as [o|]; [|reflexivity].
  now destruct (o =? i)%nat.
Qed.

Lemma markersBefore_fresh (i k : nat) :
  k <= S i -> markersBefore nodes i k = 0.
Proof.
  intros Hk. unfold markersBefore.
  rewrite (filter_ext_in _ (fun _ => false)); [now rewrite filter_false|].
  intros j Hj. apply in_seq in Hj.
  destruct (markerOwner nodes j) as [o|] eqn:E; [|reflexivity].
  apply markerOwner_lt in E. apply Nat.eqb_neq. lia.
Qed.

Lemma listFrameAt_S (i k : nat) :
  markerOwner nodes k <> Some i ->
  listFrameAt nodes (S k) i = listFrameAt nodes k i.
Proof.
  intros H. unfold listFrameAt. rewrite markersBefore_S.
  destruct (markerOwner nodes k) as [o|]; [|now rewrite Nat.add_0_r].
  destruct (o =? i)%nat eqn:E; [|now rewrite Nat.add_0_r].
  apply Nat.eqb_eq in E. subst o. now elim H.
Qed.

Lemma listFrameAt_not_ol (i k k' : nat) :
  String.eqb (tagAt nodes i) "ol" = false ->
  listFrameAt nodes k i = listFrameAt nodes k' i.
Proof. intros H. unfold listFrameAt. now rewrite H. Qed.

Lemma openFrames_NoDup (kind : Node -> bool) (k : nat) :
  NoDup (rev (openFrames kind nodes k)).
Proof.
  apply NoDup_rev. unfold openFrames. apply NoDup_filter, seq_NoDup.
Qed.

(** The list stack after the emission of turn [k]. *)
Lemma dispatch_listStack (k : nat) (e : Entry) (st mid : State) :
  nth_error nodes k = Some e ->
  listStack st = map (listFrameAt nodes k) (rev (openFrames isList nodes k)) ->
  dispatch e st = Ok mid ->
  listStack mid
  = map (listFrameAt nodes (S k)) (rev (pending isList nodes k)).
Proof.
  intros He Hst H.
  pose proof (nodeAt_nth nodes k e He) as Hn.
  pose proof (depthAt_nth nodes k e He) as Hd.
  assert (Hsame : markerOwner nodes k = None ->
            map (listFrameAt nodes k) (rev (openFrames isList nodes k))
            = map (listFrameAt nodes (S k)) (rev (openFrames isList nodes k))).
  { intros Hm. apply map_ext. intros i. symmetry. apply listFrameAt_S.
    now rewrite Hm. }
  unfold pending. rewrite Hn.
  unfold dispatch in H. unfold markerOwner in Hsame. rewrite Hn in Hsame.
  destruct (node e) as [tag|tag|cs fc|c f| | | | |url| ] eqn:En;
    cbn [isList] in *;
    try (rewrite app_nil_r, <- Hsame by reflexivity; rewrite <- Hst).
  - destruct (String.eqb tag "h1"); [|destruct (String.eqb tag "h2")];
      now injection H as <-.
  - injection H as <-. cbn [listStack setListStack].
    rewrite rev_app_distr. cbn [rev app map].
    rewrite Hst, Hsame by reflexivity. f_equal.
    unfold listFrameAt, tagAt. rewrite Hn, Hd, markersBefore_fresh by lia.
    now destruct (String.eqb tag "ol").
  - rewrite app_nil_r.
    destruct (hasSingleListChild cs fc) eqn:Es; cbn [negb] in H.
    { injection H as <-. now rewrite Hst, Hsame. }
    clear Hsame. rewrite emitListItem_spec, Hst in H.
    pose proof (openFrames_NoDup isList k) as Hnd.
    assert (Hown : markerOwner nodes k
                   = hd_error (rev (openFrames isList nodes k))).
    { unfold markerOwner. now rewrite Hn, Es. }
    destruct (rev (openFrames isList nodes k)) as [|i0 rest];
      [discriminate|].
    cbn [map hd_error] in *.
    apply NoDup_cons_iff in Hnd. destruct Hnd as [Hnotin _].
    assert (Hrest : map (listFrameAt nodes k) rest
                    = map (listFrameAt nodes (S k)) rest).
    { apply map_ext_in. intros i Hi. symmetry. apply listFrameAt_S.
      rewrite Hown. intros Heq. injection Heq as ->. contradiction. }
    cbn [list_tag listFrameAt] in H.
    destruct (String.eqb (tagAt nodes i0) "ol") eqn:Eol.
    + injection H as <-. cbn [listStack]. rewrite Hrest. f_equal.
      unfold listFrameAt. rewrite Eol, markersBefore_S, Hown, Nat.eqb_refl.
      cbn [count list_depth list_tag]. f_equal. lia.
    + rewrite <- Hrest, <- (listFrameAt_not_ol i0 k (S k) Eol), <- Hst.
      destruct (String.eqb (tagAt nodes i0) "ul"); now injection H as <-.
  - now injection H as <-.
  - now injection H as <-.
  - now injection H as <-.
  - now injection H as <-.
  - now injection H as <-.
  - now injection H as <-.
  - now injection H as <-.
Qed.

End Counters.

(** ** The invariant of the loop *)

Section Run.

Variable nodes : list Entry.

Lemma StacksAt_initial : StacksAt nodes 0 initialState.
Proof. repeat split. Qed.

Lemma dispatch_pending (k : nat) (e : Entry) (st mid : State) :
  nth_error nodes k = Some e ->
  StacksAt nodes k st ->
  dispatch e st = Ok mid ->
  StacksPending nodes k mid.
Proof.
  intros He (Hc & Hq & Hl) H.
  pose proof (nodeAt_nth nodes k e He) as Hn.
  pose proof (depthAt_nth nodes k e He) as Hd.
  repeat split.
  - rewrite (dispatch_codeStack e st mid H), Hc. unfold pending.
    rewrite Hn, rev_app_distr.
    destruct (isCode (node e)); [|reflexivity].
    cbn [rev app map]. f_equal. unfold codeFrameAt. now rewrite Hd.
  - rewrite (dispatch_quoteStack e st mid H), Hq. unfold pending.
    rewrite Hn, rev_app_distr.
    destruct (isQuote (node e)); [|reflexivity].
    cbn [rev app map]. f_equal. unfold quoteFrameAt. now rewrite Hd.
  - now apply (dispatch_listStack nodes k e st mid).
Qed.

Lemma dispatch_total (k : nat) (e : Entry) (st : State) :
  StacksAt nodes k st ->
  (isListItem (node e) = true -> openFrames isList nodes k <> []) ->
  exists mid, dispatch e st = Ok mid.
Proof.
  intros (_ & _ & Hl) Hitem. unfold dispatch.
  destruct (node e) as [tag|tag|cs fc|c f| | | | |url| ]; eauto.
  - destruct (String.eqb tag "h1"); [|destruct (String.eqb tag "h2")]; eauto.
  - destruct (negb (hasSingleListChild cs fc)); eauto.
    rewrite emitListItem_spec, Hl.
    destruct (rev (openFrames isList nodes k)) as [|i0 rest] eqn:E.
    + exfalso. apply Hitem; [reflexivity|].
      apply (f_equal (@rev nat)) in E. now rewrite rev_involutive in E.
    + cbn [map]. cbv zeta.
      destruct (String.eqb (list_tag (listFrameAt nodes k i0)) "ol"); eauto.
      destruct (String.eqb (list_tag (listFrameAt nodes k i0)) "ul"); eauto.
Qed.

Lemma closeOut_stacks (k : nat) (mid : State) :
  StacksPending nodes k mid ->
  StacksAt nodes (S k) (closeOut (nth_error nodes (S k)) mid).
Proof.
  intros (Hc & Hq & Hl). rewrite closeOut_spec.
  unfold StacksAt. cbn [codeStack quoteStack listStack].
  rewrite Hc, Hq, Hl. repeat split; now apply popWhile_pending.
Qed.

(** The text of one close-out pass, counted on the input. *)
Lemma closeOut_text (k : nat) (mid : State) :
  StacksPending nodes k mid ->
  text (closeOut (nth_error nodes (S k)) mid)
  = text mid
    ++ linkClosing (nth_error nodes (S k)) (closingBracketStack mid)
    ++ repeatString fence (List.length (closedAt isCode nodes k))
    ++ repeatString newline (List.length (closedAt isQuote nodes k)).
Proof.
  intros (Hc & Hq & _). rewrite closeOut_spec. cbn [text].
  rewrite Hc, Hq.
  rewrite (popped_pending nodes isCode code_depth (codeFrameAt nodes) k)
    by reflexivity.
  rewrite (popped_pending nodes isQuote quote_depth (quoteFrameAt nodes) k)
    by reflexivity.
  now rewrite !length_map, !length_rev.
Qed.

Hypothesis enclosed : listItemsEnclosed nodes = true.

Lemma enclosed_at (k : nat) (e : Entry) :
  nth_error nodes k = Some e ->
  isListItem (node e) = true -> openFrames isList nodes k <> [].
Proof.
  intros He Hitem Hnil.
  unfold listItemsEnclosed in enclosed. rewrite forallb_forall in enclosed.
  assert (Hk : In k (seq 0 (List.length nodes))).
  { apply in_seq. split; [lia|]. apply nth_error_Some. now rewrite He. }
  specialize (enclosed k Hk).
  rewrite (nodeAt_nth nodes k e He), Hitem, Hnil in enclosed. discriminate.
Qed.

Lemma run_step (k : nat) (st : State) :
  k < List.length nodes ->
  runTo nodes k = Ok st ->
  StacksAt nodes k st ->
  exists e mid,
    nth_error nodes k = Some e
    /\ dispatch e st = Ok mid
    /\ StacksPending nodes k mid
    /\ runTo nodes (S k) = Ok (closeOut (nth_error nodes (S k)) mid).
Proof.
  intros Hk Hrun Hst.
  destruct (nth_error nodes k) as [e|] eqn:He;
    [|apply nth_error_None in He; lia].
  destruct (dispatch_total k e st Hst (enclosed_at k e He)) as [mid Hmid].
  exists e, mid. split; [reflexivity|]. split; [exact Hmid|]. split.
  - now apply (dispatch_pending k e st mid).
  - cbn [runTo]. rewrite Hrun. cbn [bind]. unfold iterationAt, iteration.
    rewrite He, Hmid. reflexivity.
Qed.

Lemma run_invariant (k : nat) :
  k <= List.length nodes ->
  exists st, runTo nodes k = Ok st /\ StacksAt nodes k st.
Proof.
  induction k as [|k IH]; intros Hk.
  - exists initialState. split; [reflexivity | apply StacksAt_initial].
  - destruct IH as (st & Hrun & Hst); [lia|].
    destruct (run_step k st Hk Hrun Hst) as (e & mid & He & Hd & Hp & Hr).
    eexists. split; [exact Hr|]. now apply closeOut_stacks.
Qed.

End Run.

(** ** The output only grows *)

Lemma appendLineBreak_grows (t : string) (b : bool) :
  exists s, appendLineBreak t b = t ++ s.
Proof.
  unfold appendLineBreak. destruct ((0 <? String.length t)%nat || b).
  - now exists newline.
  - exists "". now rewrite append_nil_r.
Qed.

Lemma dispatch_grows (e : Entry) (st mid : State) :
  dispatch e st = Ok mid -> exists s, text mid = text st ++ s.
Proof.
  intros H.
  destruct (appendLineBreak_grows (text st) (shouldAppendFirstLineBreak st))
    as [nl Hnl].
  dispatch_cases H; cbn -[append]; rewrite ?Hnl, ?append_assoc;
    first [ eexists; reflexivity | exists ""; now rewrite append_nil_r ].
Qed.

Lemma iteration_grows (e : Entry) (nextNode : option Entry) (st st' : State) :
  iteration e nextNode st = Ok st' -> exists s, text st' = text st ++ s.
Proof.
  unfold iteration. destruct (dispatch e st) as [mid|] eqn:E; [|discriminate].
  cbn [bind]. intros H. injection H as <-.
  destruct (dispatch_grows e st mid E) as [s Hs].
  rewrite closeOut_spec. cbn [text]. rewrite Hs, append_assoc.
  eexists; reflexivity.
Qed.

Lemma iterationAt_grows (nodes : list Entry) (i : nat) (st st' : State) :
  iterationAt nodes i st = Ok st' -> exists s, text st' = text st ++ s.
Proof.
  unfold iterationAt. destruct (nth_error nodes i) as [e|].
  - apply iteration_grows.
  - intros H. injection H as <-. exists "". now rewrite append_nil_r.
Qed.

Lemma runTo_grows (nodes : list Entry) (k k' : nat) (st' : State) :
  k <= k' ->
  runTo nodes k' = Ok st' ->
  exists st s, runTo nodes k = Ok st /\ text st' = text st ++ s.
Proof.
  intros Hle. revert st'. induction Hle as [|k' Hle IH]; intros st' H.
  - exists st', "". now rewrite append_nil_r.
  - cbn [runTo] in H. destruct (runTo nodes k') as [st1|] eqn:E1;
      [|discriminate].
    cbn [bind] in H. apply iterationAt_grows in H. destruct H as [s1 Hs1].
    destruct (IH st1 eq_refl) as (st & s & Hrun & Hs).
    exists st, (s ++ s1). split; [exact Hrun|].
    now rewrite Hs1, Hs, append_assoc.
Qed.

(** ** Every frame has one closing position *)

Section Closing.

Variable nodes : list Entry.

Lemma firstClosing_unique (i k k' : nat) :
  firstClosing nodes i k -> firstClosing nodes i k' -> k = k'.
Proof.
  assert (H : forall a b, firstClosing nodes i a -> firstClosing nodes i b ->
                          ~ a < b).
  { intros a b (Hia & _ & Hc) (_ & Ho & _) Hab.
    unfold staysOpen in Ho. rewrite forallb_forall in Ho.
    assert (Hin : In a (seq i (b - i))) by (apply in_seq; lia).
    apply Ho in Hin. now rewrite Hc in Hin. }
  intros Hk Hk'.
  pose proof (H k k' Hk Hk'). pose proof (H k' k Hk' Hk). lia.
Qed.

Lemma firstClosing_from (m i k : nat) :
  List.length nodes - k <= m ->
  i <= k -> k < List.length nodes ->
  staysOpen nodes i k = true ->
  exists k', k <= k' < List.length nodes /\ firstClosing nodes i k'.
Proof.
  revert k. induction m as [|m IH]; intros k Hm Hik Hk Ho; [lia|].
  destruct (closes (nth_error nodes (S k)) (depthAt nodes i)) eqn:E.
  - exists k. repeat split; auto; lia.
  - assert (HS : S k < List.length nodes).
    { apply nth_error_Some. intros Hn. now rewrite Hn in E. }
    destruct (IH (S k)) as (k' & Hk' & Hf); try lia.
    + rewrite staysOpen_S by lia. now rewrite Ho, E.
    + exists k'. split; [lia | exact Hf].
Qed.

Lemma firstClosing_exists (i : nat) :
  i < List.length nodes ->
  exists k, i <= k < List.length nodes /\ firstClosing nodes i k.
Proof.
  intros Hi.
  apply (firstClosing_from (List.length nodes) i i); auto;
    [lia | apply staysOpen_refl].
Qed.

Lemma closedAt_firstClosing (kind : Node -> bool) (i k : nat) :
  In i (closedAt kind nodes k)
  <-> kind (nodeAt nodes i) = true /\ firstClosing nodes i k.
Proof. rewrite closedAt_In. unfold firstClosing. tauto. Qed.

(** At the end of the sequence nothing is open. *)
Lemma openFrames_end (kind : Node -> bool) :
  openFrames kind nodes (List.length nodes) = [].
Proof.
  destruct (openFrames kind nodes (List.length nodes)) as [|i l] eqn:E;
    [reflexivity|].
  assert (Hin : In i (openFrames kind nodes (List.length nodes)))
    by (rewrite E; now left).
  apply openFrames_lt in Hin. lia.
Qed.

(** Pushes and pops, counted up to turn [n]. *)
Lemma closedAt_count (kind : Node -> bool) (n : nat) :
  list_sum (map (fun k => List.length (closedAt kind nodes k)) (seq 0 n))
  + List.length (openFrames kind nodes n)
  = List.length (filter (fun i => kind (nodeAt nodes i)) (seq 0 n)).
Proof.
  induction n as [|n IH]; [reflexivity|].
  rewrite !seq_S, map_app, list_sum_app, filter_app, length_app.
  cbn [map list_sum Nat.add filter].
  rewrite closedAt_pending, openFrames_S.
  pose proof (filter_split_length
    (fun i => closes (nth_error nodes (S n)) (depthAt nodes i))
    (pending kind nodes n)) as Hs.
  unfold pending in Hs at 3. rewrite length_app in Hs.
  unfold list_sum at 2. cbn [fold_right].
  destruct (kind (nodeAt nodes n)); cbn [List.length] in *; lia.
Qed.

Lemma nodeAt_seq :
  map (nodeAt nodes) (seq 0 (List.length nodes)) = map node nodes.
Proof.
  unfold nodeAt. induction nodes as [|e l IH]; [reflexivity|].
  cbn [List.length seq map nth_error]. f_equal.
  rewrite <- seq_shift, map_map. exact IH.
Qed.

Lemma count_positions (kind : Node -> bool) :
  List.length (filter (fun i => kind (nodeAt nodes i))
                 (seq 0 (List.length nodes)))
  = List.length (filter (fun e => kind (node e)) nodes).
Proof.
  rewrite <- (length_map (nodeAt nodes)).
  rewrite <- (filter_map_swap kind (nodeAt nodes)), nodeAt_seq.
  rewrite (filter_map_swap kind node). apply length_map.
Qed.

End Closing.

(** ** The link stack when links are not nested *)

Lemma runTo_S_inv (nodes : list Entry) (k : nat) (st' : State) :
  k < List.length nodes ->
  runTo nodes (S k) = Ok st' ->
  exists e st mid,
    nth_error nodes k = Some e
    /\ runTo nodes k = Ok st
    /\ dispatch e st = Ok mid
    /\ st' = closeOut (nth_error nodes (S k)) mid.
Proof.
  intros Hk H. cbn [runTo] in H.
  destruct (runTo nodes k) as [st|]; [|discriminate]. cbn [bind] in H.
  unfold iterationAt in H.
  destruct (nth_error nodes k) as [e|] eqn:He;
    [|apply nth_error_None in He; lia].
  unfold iteration in H.
  destruct (dispatch e st) as [mid|] eqn:Hd; [|discriminate].
  cbn [bind] in H. injection H as <-. now exists e, st, mid.
Qed.

Lemma popOnce_short (nextNode : option Entry) (s : list LinkFrame) :
  List.length s <= 1 -> popOnce nextNode s = popWhile link_depth nextNode s.
Proof.
  destruct s as [|a [|b s]]; cbn; intros H; try lia; [reflexivity|].
  now destruct (closes nextNode (link_depth a)).
Qed.

Lemma linkClosing_short (nextNode : option Entry) (s : list LinkFrame) :
  List.length s <= 1 ->
  linkClosing nextNode s
  = fold_right append "" (map endText (popped link_depth nextNode s)).
Proof.
  destruct s as [|a [|b s]]; cbn -[append]; intros H; try lia; [reflexivity|].
  destruct (closes nextNode (link_depth a)); cbn -[append];
    [now rewrite append_nil_r | reflexivity].
Qed.

Section Links.

Variable nodes : list Entry.

Lemma dispatch_links_pending (k : nat) (e : Entry) (st mid : State) :
  nth_error nodes k = Some e ->
  closingBracketStack st
  = map (linkFrameAt nodes) (rev (openFrames isLink nodes k)) ->
  dispatch e st = Ok mid ->
  closingBracketStack mid
  = map (linkFrameAt nodes) (rev (pending isLink nodes k)).
Proof.
  intros He Hst H.
  rewrite (dispatch_closingBracketStack e st mid H), Hst.
  unfold pending. rewrite (nodeAt_nth nodes k e He), rev_app_distr.
  destruct (node e) eqn:En; try reflexivity.
  cbn [isLink rev app map]. f_equal.
  unfold linkFrameAt, urlAt.
  rewrite (nodeAt_nth nodes k e He), (depthAt_nth nodes k e He), En.
  now rewrite encodeURL_percentEncode.
Qed.

Hypothesis flat : linksNotNested nodes = true.

Lemma flat_at (k : nat) :
  isLink (nodeAt nodes k) = true -> openFrames isLink nodes k = [].
Proof.
  intros Hl. unfold linksNotNested in flat. rewrite forallb_forall in flat.
  assert (Hk : In k (seq 0 (List.length nodes))).
  { apply in_seq. split; [lia|]. cbn. apply nth_error_Some.
    unfold nodeAt in Hl. intros Hn. now rewrite Hn in Hl. }
  specialize (flat k Hk). rewrite Hl in flat. cbn in flat.
  now destruct (openFrames isLink nodes k).
Qed.

Lemma pending_link_short (k : nat) :
  List.length (openFrames isLink nodes k) <= 1
  /\ List.length (pending isLink nodes k) <= 1.
Proof.
  induction k as [|k [IHo IHp]].
  - split; [cbn; lia|]. unfold pending. cbn [openFrames seq filter app].
    destruct (isLink (nodeAt nodes 0)); cbn; lia.
  - assert (Ho : List.length (openFrames isLink nodes (S k)) <= 1).
    { rewrite openFrames_S. etransitivity; [apply filter_length_le|exact IHp]. }
    split; [exact Ho|]. unfold pending.
    destruct (isLink (nodeAt nodes (S k))) eqn:E.
    + rewrite (flat_at (S k) E). cbn. lia.
    + now rewrite app_nil_r.
Qed.

Lemma closeOut_links (k : nat) (mid : State) :
  closingBracketStack mid
  = map (linkFrameAt nodes) (rev (pending isLink nodes k)) ->
  closingBracketStack (closeOut (nth_error nodes (S k)) mid)
  = map (linkFrameAt nodes) (rev (openFrames isLink nodes (S k)))
  /\ linkClosing (nth_error nodes (S k)) (closingBracketStack mid)
     = linkClosingsAt nodes k.
Proof.
  intros Hm.
  assert (Hshort : List.length (closingBracketStack mid) <= 1).
  { rewrite Hm, length_map, length_rev. apply pending_link_short. }
  rewrite closeOut_spec. cbn [closingBracketStack].
  rewrite popOnce_short, linkClosing_short by exact Hshort.
  rewrite Hm. split.
  - now apply popWhile_pending.
  - rewrite (popped_pending nodes isLink link_depth (linkFrameAt nodes) k)
      by reflexivity.
    unfold linkClosingsAt. now rewrite map_map.
Qed.

Lemma link_invariant (k : nat) (st : State) :
  k <= List.length nodes ->
  runTo nodes k = Ok st ->
  closingBracketStack st
  = map (linkFrameAt nodes) (rev (openFrames isLink nodes k)).
Proof.
  revert st. induction k as [|k IH]; intros st Hk H.
  - injection H as <-. reflexivity.
  - destruct (runTo_S_inv nodes k st Hk H) as (e & st0 & mid & He & Hr & Hd & ->).
    apply closeOut_links.
    apply (dispatch_links_pending k e st0 mid He); [|exact Hd].
    apply IH; [lia | exact Hr].
Qed.

End Links.

(** ** One turn on well-formed input *)

Lemma wellFormed_enclosed (nodes : list Entry) :
  wellFormed nodes = true -> listItemsEnclosed nodes = true.
Proof. unfold wellFormed. intros H. now apply andb_true_iff in H. Qed.

Lemma turn_at (nodes : list Entry) (k : nat) :
  listItemsEnclosed nodes = true ->
  k < List.length nodes ->
  exists e st mid,
    nth_error nodes k = Some e
    /\ runTo nodes k = Ok st
    /\ StacksAt nodes k st
    /\ dispatch e st = Ok mid
    /\ StacksPending nodes k mid
    /\ runTo nodes (S k) = Ok (closeOut (nth_error nodes (S k)) mid).
Proof.
  intros Henc Hk.
  destruct (run_invariant nodes Henc k) as (st & Hrun & Hst); [lia|].
  destruct (run_step nodes Henc k st Hk Hrun Hst)
    as (e & mid & He & Hd & Hp & Hr).
  now exists e, st, mid.
Qed.

Lemma length_append (a b : string) :
  String.length (a ++ b) = String.length a + String.length b.
Proof. induction a as [|x a IH]; cbn; [reflexivity | now rewrite IH]. Qed.


Lemma dispatch_block (e : Entry) (st mid : State) (marker : string) :
  blockMarker (node e) = Some marker ->
  dispatch e st = Ok mid ->
  text mid
  = appendLineBreak (text st) (shouldAppendFirstLineBreak st) ++ marker.
Proof.
  intros Hm H. unfold dispatch in H. unfold blockMarker in Hm.
  destruct (node e) as [tag|tag|cs fc|c f| | | | |url| ]; try discriminate.
  - destruct (String.eqb tag "h1"); [|destruct (String.eqb tag "h2")];
      try discriminate; injection Hm as <-; now injection H as <-.
  - injection Hm as <-. injection H as <-. cbn [text setText setShouldAppendFirstLineBreak].
    now rewrite append_nil_r.
  - injection Hm as <-. now injection H as <-.
  - injection Hm as <-. injection H as <-. cbn [text setText].
    now rewrite append_nil_r.
  - injection Hm as <-. now injection H as <-.
Qed.

Lemma markersBefore_zero (nodes : list Entry) (i k : nat) :
  (forall j, j < k -> markerOwner nodes j <> Some i) ->
  markersBefore nodes i k = 0.
Proof.
  intros H. unfold markersBefore.
  rewrite (filter_ext_in _ (fun _ => false)); [now rewrite filter_false|].
  intros j Hj. apply in_seq in Hj.
  destruct (markerOwner nodes j) as [o|] eqn:E; [|reflexivity].
  apply Nat.eqb_neq. intros ->. apply (H j); [lia | exact E].
Qed.

Lemma runTo_final (nodes : list Entry) :
  listItemsEnclosed nodes = true ->
  exists final,
    runTo nodes (List.length nodes) = Ok final
    /\ codeStack final = [] /\ quoteStack final = [] /\ listStack final = [].
Proof.
  intros Henc.
  destruct (run_invariant nodes Henc (List.length nodes)) as (st & Hr & Hst);
    [lia|].
  exists st. split; [exact Hr|].
  destruct Hst as (Hc & Hq & Hl).
  now rewrite Hc, Hq, Hl, !openFrames_end.
Qed.

(** The emission raises only in the list-item branch, on an empty stack. *)
Lemma dispatch_throws (e : Entry) (st : State) (x : Exception) :
  dispatch e st = Throw x ->
  isListItem (node e) = true /\ listStack st = [] /\ x = RangeError.
Proof.
  unfold dispatch.
  destruct (node e) as [tag|tag|cs fc|c f| | | | |url| ]; try discriminate.
  - destruct (String.eqb tag "h1"); [|destruct (String.eqb tag "h2")];
      discriminate.
  - destruct (negb (hasSingleListChild cs fc)); [|discriminate].
    rewrite emitListItem_spec.
    destruct (listStack st) as [|top below].
    + intros H. injection H as <-. now repeat split.
    + cbv zeta.
      destruct (String.eqb (list_tag top) "ol");
        [|destruct (String.eqb (list_tag top) "ul")]; discriminate.
Qed.

(** ** The heap *)

Lemma nth_error_update_eq (h : Heap) (a : nat) (o : Obj) :
  a < List.length h -> nth_error (update h a o) a = Some o.
Proof.
  revert a. induction h as [|x h IH]; intros [|a] Ha; cbn in *;
    try lia; [reflexivity | apply IH; lia].
Qed.

Lemma nth_error_update_neq (h : Heap) (a x : nat) (o : Obj) :
  x <> a -> nth_error (update h a o) x = nth_error h x.
Proof.
  revert a x. induction h as [|y h IH]; intros [|a] [|x] Hx; cbn;
    try reflexivity; try congruence.
  apply IH. congruence.
Qed.

Lemma keeps_refl (P : nat -> Prop) (h : Heap) : keeps P h h.
Proof. intros x o _ H. exact H. Qed.

Lemma keeps_trans (P : nat -> Prop) (h1 h2 h3 : Heap) :
  keeps P h1 h2 -> keeps P h2 h3 -> keeps P h1 h3.
Proof. intros H12 H23 x o Hx H. apply H23; [exact Hx|]. now apply H12. Qed.

Lemma keeps_weaken (P Q : nat -> Prop) (h h' : Heap) :
  (forall x, Q x -> P x) -> keeps P h h' -> keeps Q h h'.
Proof. intros HQP H x o Hx Ho. apply H; auto. Qed.

Lemma keeps_update (h : Heap) (a : nat) (o : Obj) :
  keeps (fun x => x <> a) h (update h a o).
Proof. intros x o' Hx H. now rewrite nth_error_update_neq. Qed.

Lemma keeps_alloc (P : nat -> Prop) (h : Heap) (o : Obj) :
  keeps P h (h ++ [o])%list.
Proof.
  intros x o' _ H. rewrite nth_error_app1; [exact H|].
  apply nth_error_Some. now rewrite H.
Qed.

(** *** The steps of a computation *)

Lemma bind_ret {A B : Type} (a : A) (k : A -> M B) (h : Heap) :
  bindM (ret a) k h = k a h.
Proof. reflexivity. Qed.

Lemma bind_store {B : Type} (a : nat) (o : Obj) (k : unit -> M B)
    (h : Heap) :
  bindM (store a o) k h = k tt (update h a o).
Proof. reflexivity. Qed.

Lemma bind_bind {A B C : Type} (m : M A) (k : A -> M B) (k' : B -> M C)
    (h : Heap) :
  bindM (bindM m k) k' h = bindM m (fun a => bindM (k a) k') h.
Proof.
  unfold bindM. destruct (m h) as [[a|e] h']; reflexivity.
Qed.

Lemma bind_elementsOf {B : Type} (a : nat) (refs : list nat)
    (k : list nat -> M B) (h : Heap) :
  nth_error h a = Some (ArrayObj refs) ->
  bindM (elementsOf a) k h = k refs h.
Proof.
  intros H. unfold elementsOf, bindM, load. now rewrite H.
Qed.

Lemma bind_arrayLength {B : Type} (a : nat) (refs : list nat)
    (k : nat -> M B) (h : Heap) :
  nth_error h a = Some (ArrayObj refs) ->
  bindM (arrayLength a) k h = k (List.length refs) h.
Proof.
  intros H. unfold arrayLength. rewrite bind_bind.
  now rewrite (bind_elementsOf a refs _ h H).
Qed.

Lemma bind_arrayLast {B : Type} (a : nat) (refs : list nat)
    (k : option nat -> M B) (h : Heap) :
  nth_error h a = Some (ArrayObj refs) ->
  bindM (arrayLast a) k h = k (hd_error refs) h.
Proof.
  intros H. unfold arrayLast. rewrite bind_bind.
  now rewrite (bind_elementsOf a refs _ h H).
Qed.

Lemma bind_arrayPush {B : Type} (a x : nat) (refs : list nat)
    (k : unit -> M B) (h : Heap) :
  nth_error h a = Some (ArrayObj refs) ->
  bindM (arrayPush a x) k h = k tt (update h a (ArrayObj (x :: refs))).
Proof.
  intros H. unfold arrayPush. rewrite bind_bind.
  now rewrite (bind_elementsOf a refs _ h H).
Qed.

Lemma bind_arrayPop {B : Type} (a x : nat) (rest : list nat)
    (k : option nat -> M B) (h : Heap) :
  nth_error h a = Some (ArrayObj (x :: rest)) ->
  bindM (arrayPop a) k h = k (Some x) (update h a (ArrayObj rest)).
Proof.
  intros H. unfold arrayPop. rewrite bind_bind.
  now rewrite (bind_elementsOf a (x :: rest) _ h H).
Qed.

Lemma bind_loadLinkFrame {B : Type} (x : nat) (f : LinkFrame)
    (k : LinkFrame -> M B) (h : Heap) :
  nth_error h x = Some (LinkFrameObj f) ->
  bindM (loadLinkFrame (Some x)) k h = k f h.
Proof. intros H. unfold loadLinkFrame, bindM, load. now rewrite H. Qed.

Lemma bind_loadListFrame {B : Type} (x : nat) (f : ListFrame)
    (k : ListFrame -> M B) (h : Heap) :
  nth_error h x = Some (ListFrameObj f) ->
  bindM (loadListFrame (Some x)) k h = k f h.
Proof. intros H. unfold loadListFrame, bindM, load. now rewrite H. Qed.

Lemma bind_loadQuoteFrame {B : Type} (x : nat) (f : QuoteFrame)
    (k : QuoteFrame -> M B) (h : Heap) :
  nth_error h x = Some (QuoteFrameObj f) ->
  bindM (loadQuoteFrame (Some x)) k h = k f h.
Proof. intros H. unfold loadQuoteFrame, bindM, load. now rewrite H. Qed.

Lemma bind_loadCodeFrame {B : Type} (x : nat) (f : CodeFrame)
    (k : CodeFrame -> M B) (h : Heap) :
  nth_error h x = Some (CodeFrameObj f) ->
  bindM (loadCodeFrame (Some x)) k h = k f h.
Proof. intros H. unfold loadCodeFrame, bindM, load. now rewrite H. Qed.

(** *** Arrays of frames *)

Lemma Forall2_In_left {A B : Type} (R : A -> B -> Prop) (l : list A)
    (l' : list B) (x : A) :
  Forall2 R l l' -> In x l -> exists y, R x y.
Proof.
  induction 1 as [|a b l l' Hab _ IH]; intros Hin; [contradiction|].
  destruct Hin as [<-|Hin]; [now exists b | now apply IH].
Qed.

Lemma Forall2_impl_left {A B : Type} (R R' : A -> B -> Prop) (l : list A)
    (l' : list B) :
  (forall x y, In x l -> R x y -> R' x y) ->
  Forall2 R l l' -> Forall2 R' l l'.
Proof.
  intros H HF. induction HF as [|a b l l' Hab _ IH]; constructor.
  - apply H; [now left | exact Hab].
  - apply IH. intros x y Hx. apply H. now right.
Qed.

Section Holds.

Context {F : Type}.
Variable wrap : F -> Obj.
Hypothesis wrap_not_array : forall f l, wrap f <> ArrayObj l.
Variable base : nat.

Lemma holds_kept (h h' : Heap) (a b : nat) (fs : list F) :
  holds wrap base h b fs ->
  keeps (fun y => y <> a) h h' ->
  b <> a ->
  (forall f, nth_error h a <> Some (wrap f)) ->
  holds wrap base h' b fs.
Proof.
  intros (Hb & refs & Harr & Hfs & Hnd & Hge) Hk Hba Hnot.
  split; [exact Hb|]. exists refs. repeat split; auto.
  eapply Forall2_impl; [|exact Hfs]. cbn. intros x f Hx.
  apply Hk; [|exact Hx]. intros ->. now apply (Hnot f).
Qed.

Lemma holds_valid (h : Heap) (a : nat) (fs : list F) :
  holds wrap base h a fs -> a < List.length h /\ base <= List.length h.
Proof.
  intros (Hb & refs & Harr & _).
  assert (a < List.length h) by (apply nth_error_Some; now rewrite Harr).
  lia.
Qed.

(** An object literal pushed on the array. *)
Lemma holds_push (h : Heap) (a : nat) (fs : list F) (f : F) :
  holds wrap base h a fs ->
  exists refs,
    nth_error (h ++ [wrap f])%list a = Some (ArrayObj refs)
    /\ holds wrap base
         (update (h ++ [wrap f])%list a (ArrayObj (List.length h :: refs)))
         a (f :: fs)
    /\ keeps (fun y => y <> a) h
         (update (h ++ [wrap f])%list a (ArrayObj (List.length h :: refs))).
Proof.
  intros Hh. pose proof (holds_valid h a fs Hh) as [Ha Hbase].
  destruct Hh as (Hb & refs & Harr & Hfs & Hnd & Hge).
  exists refs.
  assert (Harr' : nth_error (h ++ [wrap f])%list a = Some (ArrayObj refs))
    by now apply (keeps_alloc (fun _ => True) h (wrap f) a).
  split; [exact Harr'|].
  assert (Hk : keeps (fun y => y <> a) h
                 (update (h ++ [wrap f])%list a
                    (ArrayObj (List.length h :: refs)))).
  { eapply keeps_trans; [apply (keeps_alloc _ h (wrap f))|].
    apply keeps_update. }
  split; [|exact Hk].
  assert (Hfresh : forall x g, nth_error h x = Some (wrap g) -> x <> a).
  { intros x g Hx ->. rewrite Harr in Hx. injection Hx as Hx.
    now apply (wrap_not_array g refs). }
  assert (Hlt : forall x, In x refs -> x < List.length h).
  { intros x Hx. destruct (Forall2_In_left _ _ _ x Hfs Hx) as (g & Hg).
    apply nth_error_Some. now rewrite Hg. }
  split; [exact Hb|]. exists (List.length h :: refs). repeat split.
  - apply nth_error_update_eq. rewrite length_app. cbn. lia.
  - constructor.
    + rewrite nth_error_update_neq by lia.
      rewrite nth_error_app2 by lia. now rewrite Nat.sub_diag.
    + eapply Forall2_impl; [|exact Hfs]. cbn. intros x g Hx.
      apply Hk; [now apply (Hfresh x g) | exact Hx].
  - constructor; [|exact Hnd]. intros Hin. apply Hlt in Hin. lia.
  - constructor; [lia | exact Hge].
Qed.

(** The array after [pop]. *)
Lemma holds_pop (h : Heap) (a : nat) (f : F) (fs : list F) :
  holds wrap base h a (f :: fs) ->
  exists x rest,
    nth_error h a = Some (ArrayObj (x :: rest))
    /\ nth_error h x = Some (wrap f)
    /\ nth_error (update h a (ArrayObj rest)) x = Some (wrap f)
    /\ base <= x
    /\ holds wrap base (update h a (ArrayObj rest)) a fs
    /\ keeps (fun y => y <> a) h (update h a (ArrayObj rest)).
Proof.
  intros Hh. pose proof (holds_valid h a _ Hh) as [Ha _].
  destruct Hh as (Hb & refs & Harr & Hfs & Hnd & Hge).
  inversion Hfs as [|x g rest fs' Hx Hrest]; subst.
  assert (Hfresh : forall y g, nth_error h y = Some (wrap g) -> y <> a).
  { intros y g Hy ->. rewrite Harr in Hy. injection Hy as Hy.
    now apply (wrap_not_array g (x :: rest)). }
  pose proof (keeps_update h a (ArrayObj rest)) as Hk.
  exists x, rest. split; [exact Harr|]. split; [exact Hx|].
  split; [apply Hk; [now apply (Hfresh x f) | exact Hx]|].
  split; [now inversion Hge|]. split; [|exact Hk].
  split; [exact Hb|]. exists rest. repeat split.
  - now apply nth_error_update_eq.
  - eapply Forall2_impl; [|exact Hrest]. cbn. intros y g Hy.
    apply Hk; [now apply (Hfresh y g) | exact Hy].
  - now inversion Hnd.
  - now inversion Hge.
Qed.

Lemma holds_length (h : Heap) (a : nat) (fs : list F) :
  holds wrap base h a fs ->
  exists refs,
    nth_error h a = Some (ArrayObj refs)
    /\ List.length refs = List.length fs.
Proof.
  intros (_ & refs & Harr & Hfs & _). exists refs.
  split; [exact Harr | now apply (Forall2_length Hfs)].
Qed.

End Holds.

Lemma holds_kept_array {F : Type} (wrap : F -> Obj) (base : nat)
    (h h' : Heap) (a b : nat) (l : list nat) (fs : list F) :
  (forall f l, wrap f <> ArrayObj l) ->
  holds wrap base h b fs ->
  keeps (fun y => y <> a) h h' ->
  b <> a ->
  nth_error h a = Some (ArrayObj l) ->
  holds wrap base h' b fs.
Proof.
  intros Hw Hh Hk Hba Ha. apply (holds_kept wrap base h h' a b fs Hh Hk Hba).
  intros f Hf. rewrite Ha in Hf. injection Hf as Hf. symmetry in Hf.
  now apply (Hw f l).
Qed.

Lemma holds_kept_frame {F : Type} (wrap : F -> Obj) (base : nat)
    (h h' : Heap) (x b : nat) (o : Obj) (fs : list F) :
  holds wrap base h b fs ->
  keeps (fun y => y <> x) h h' ->
  nth_error h x = Some o ->
  (forall l, o <> ArrayObj l) ->
  (forall f, o <> wrap f) ->
  holds wrap base h' b fs.
Proof.
  intros Hh Hk Hx Harr Hw.
  apply (holds_kept wrap base h h' x b fs Hh Hk).
  - intros ->. destruct Hh as (_ & refs & Hb & _). rewrite Hx in Hb.
    injection Hb as Hb. now apply (Harr refs).
  - intros f Hf. rewrite Hx in Hf. injection Hf as Hf. now apply (Hw f).
Qed.

(** The frame on top of the array, changed in place. *)
Lemma holds_store_top {F : Type} (wrap : F -> Obj) (base : nat) (h : Heap)
    (a : nat) (f f' : F) (fs : list F) :
  (forall f l, wrap f <> ArrayObj l) ->
  holds wrap base h a (f :: fs) ->
  exists x rest,
    nth_error h a = Some (ArrayObj (x :: rest))
    /\ nth_error h x = Some (wrap f)
    /\ base <= x
    /\ holds wrap base (update h x (wrap f')) a (f' :: fs).
Proof.
  intros Hw (Hb & refs & Harr & Hfs & Hnd & Hge).
  inversion Hfs as [|x g rest fs' Hx Hrest]; subst.
  pose proof (keeps_update h x (wrap f')) as Hk.
  exists x, rest. split; [exact Harr|]. split; [exact Hx|].
  split; [now inversion Hge|].
  split; [exact Hb|]. exists (x :: rest). repeat split; auto.
  - apply Hk; [|exact Harr]. intros ->. rewrite Hx in Harr.
    injection Harr as Harr. now apply (Hw f (x :: rest)).
  - constructor.
    + apply nth_error_update_eq. apply nth_error_Some. now rewrite Hx.
    + inversion Hnd as [|? ? Hnotin _]; subst.
      apply (Forall2_impl_left
               (fun y g => nth_error h y = Some (wrap g))); [|exact Hrest].
      intros y g Hin Hy. apply Hk; [|exact Hy]. intros ->. contradiction.
Qed.

Lemma NoDup_four (a b c d : nat) :
  NoDup [a; b; c; d] ->
  a <> b /\ a <> c /\ a <> d /\ b <> c /\ b <> d /\ c <> d.
Proof.
  intros H. inversion H as [|? ? Ha H1]; subst.
  inversion H1 as [|? ? Hb H2]; subst.
  inversion H2 as [|? ? Hc _]; subst.
  cbn in Ha, Hb, Hc. intuition congruence.
Qed.

(** *** Variables *)

Lemma Rep_assignText (base : nat) (act : Activation) (h : Heap) (st : State)
    (t : string) :
  Rep base act h st -> Rep base (assignText act t) h (setText st t).
Proof. intros (_ & Hf & H). now split. Qed.

Lemma Rep_assignFlag (base : nat) (act : Activation) (h : Heap) (st : State)
    (b : bool) :
  Rep base act h st ->
  Rep base (assignFlag act b) h (setShouldAppendFirstLineBreak st b).
Proof. intros (Ht & _ & H). split; [exact Ht|]. now split. Qed.

Lemma Rep_text (base : nat) (act : Activation) (h : Heap) (st : State) :
  Rep base act h st -> textVar act = text st.
Proof. now intros (Ht & _). Qed.

Lemma Rep_flag (base : nat) (act : Activation) (h : Heap) (st : State) :
  Rep base act h st -> flagVar act = shouldAppendFirstLineBreak st.
Proof. now intros (_ & Hf & _). Qed.

Lemma simulates_ret (base : nat) (act : Activation) (h : Heap) (st : State) :
  Rep base act h st -> simulates base (ret act) (Ok st) h.
Proof.
  intros H. exists h. split; [apply keeps_refl|]. now exists act.
Qed.

Lemma wrap_link (f : LinkFrame) (l : list nat) : LinkFrameObj f <> ArrayObj l.
Proof. discriminate. Qed.

Lemma wrap_list (f : ListFrame) (l : list nat) : ListFrameObj f <> ArrayObj l.
Proof. discriminate. Qed.

Lemma wrap_quote (f : QuoteFrame) (l : list nat) :
  QuoteFrameObj f <> ArrayObj l.
Proof. discriminate. Qed.

Lemma wrap_code (f : CodeFrame) (l : list nat) : CodeFrameObj f <> ArrayObj l.
Proof. discriminate. Qed.

Lemma keeps_below (base a : nat) (h h' : Heap) :
  base <= a -> keeps (fun y => y <> a) h h' -> keeps (fun x => x < base) h h'.
Proof. intros Ha. apply keeps_weaken. intros x Hx. lia. Qed.

Lemma bind_alloc {B : Type} (o : Obj) (k : nat -> M B) (h : Heap) :
  bindM (alloc o) k h = k (List.length h) (h ++ [o])%list.
Proof. reflexivity. Qed.

Lemma bind_lift {A B : Type} (r : Result A) (k : A -> M B) (h : Heap) :
  bindM (lift r) k h
  = match r with Ok a => k a h | Throw e => (Throw e, h) end.
Proof. now destruct r. Qed.

Ltac projections :=
  cbn [textVar flagVar closingBracketStackRef listStackRef quoteStackRef
       codeStackRef assignText assignFlag text shouldAppendFirstLineBreak
       closingBracketStack listStack quoteStack codeStack setText
       setClosingBracketStack setListStack setQuoteStack setCodeStack
       setShouldAppendFirstLineBreak].

Ltac other_stack Hk Harr :=
  projections;
  eapply holds_kept_array;
    [ first [exact wrap_link | exact wrap_list | exact wrap_quote
             | exact wrap_code]
    | eassumption
    | exact Hk
    | congruence
    | exact Harr ].

(** *** Pushing a frame *)

Section Push.

Variables (base : nat) (act : Activation) (h : Heap) (st : State).
Hypothesis rep : Rep base act h st.

Lemma push_link (f : LinkFrame) :
  simulates base
    (frame <~ alloc (LinkFrameObj f) ;;
     _ <~ arrayPush (closingBracketStackRef act) frame ;; ret act)
    (Ok (setClosingBracketStack st (f :: closingBracketStack st))) h.
Proof.
  destruct rep as (Ht & Hf & Hlinks & Hlists & Hquotes & Hcodes & Hnd).
  destruct (NoDup_four _ _ _ _ Hnd) as (? & ? & ? & ? & ? & ?).
  destruct (holds_push LinkFrameObj wrap_link base h _ _ f Hlinks)
    as (refs & Harr' & Hh' & Hk).
  destruct Hlinks as (Hb & refs0 & Harr & _).
  eexists. split; [exact (keeps_below base _ h _ Hb Hk)|].
  exists act. split.
  - rewrite bind_alloc, (bind_arrayPush _ _ refs _ _ Harr'). reflexivity.
  - refine (conj Ht (conj Hf (conj Hh' (conj _ (conj _ (conj _ Hnd))))));
      other_stack Hk Harr.
Qed.

Lemma push_list (f : ListFrame) :
  simulates base
    (frame <~ alloc (ListFrameObj f) ;;
     _ <~ arrayPush (listStackRef act) frame ;; ret act)
    (Ok (setListStack st (f :: listStack st))) h.
Proof.
  destruct rep as (Ht & Hf & Hlinks & Hlists & Hquotes & Hcodes & Hnd).
  destruct (NoDup_four _ _ _ _ Hnd) as (? & ? & ? & ? & ? & ?).
  destruct (holds_push ListFrameObj wrap_list base h _ _ f Hlists)
    as (refs & Harr' & Hh' & Hk).
  destruct Hlists as (Hb & refs0 & Harr & _).
  eexists. split; [exact (keeps_below base _ h _ Hb Hk)|].
  exists act. split.
  - rewrite bind_alloc, (bind_arrayPush _ _ refs _ _ Harr'). reflexivity.
  - refine (conj Ht (conj Hf (conj _ (conj Hh' (conj _ (conj _ Hnd))))));
      other_stack Hk Harr.
Qed.

Lemma push_quote (f : QuoteFrame) :
  simulates base
    (frame <~ alloc (QuoteFrameObj f) ;;
     _ <~ arrayPush (quoteStackRef act) frame ;; ret act)
    (Ok (setQuoteStack st (f :: quoteStack st))) h.
Proof.
  destruct rep as (Ht & Hf & Hlinks & Hlists & Hquotes & Hcodes & Hnd).
  destruct (NoDup_four _ _ _ _ Hnd) as (? & ? & ? & ? & ? & ?).
  destruct (holds_push QuoteFrameObj wrap_quote base h _ _ f Hquotes)
    as (refs & Harr' & Hh' & Hk).
  destruct Hquotes as (Hb & refs0 & Harr & _).
  eexists. split; [exact (keeps_below base _ h _ Hb Hk)|].
  exists act. split.
  - rewrite bind_alloc, (bind_arrayPush _ _ refs _ _ Harr'). reflexivity.
  - refine (conj Ht (conj Hf (conj _ (conj _ (conj Hh' (conj _ Hnd))))));
      other_stack Hk Harr.
Qed.

Lemma push_code (f : CodeFrame) :
  simulates base
    (frame <~ alloc (CodeFrameObj f) ;;
     _ <~ arrayPush (codeStackRef act) frame ;; ret act)
    (Ok (setCodeStack st (f :: codeStack st))) h.
Proof.
  destruct rep as (Ht & Hf & Hlinks & Hlists & Hquotes & Hcodes & Hnd).
  destruct (NoDup_four _ _ _ _ Hnd) as (? & ? & ? & ? & ? & ?).
  destruct (holds_push CodeFrameObj wrap_code base h _ _ f Hcodes)
    as (refs & Harr' & Hh' & Hk).
  destruct Hcodes as (Hb & refs0 & Harr & _).
  eexists. split; [exact (keeps_below base _ h _ Hb Hk)|].
  exists act. split.
  - rewrite bind_alloc, (bind_arrayPush _ _ refs _ _ Harr'). reflexivity.
  - refine (conj Ht (conj Hf (conj _ (conj _ (conj _ (conj Hh' Hnd))))));
      other_stack Hk Harr.
Qed.

End Push.

(** *** The emission *)

Lemma simulates_eq (base : nat) (m : M Activation) (r : Result State)
    (h h' : Heap) (res : Result Activation) :
  m h = (res, h') ->
  keeps (fun x => x < base) h h' ->
  match r, res with
  | Ok st', Ok act' => Rep base act' h' st'
  | Throw e, Throw e' => e = e'
  | _, _ => False
  end ->
  simulates base m r h.
Proof.
  intros Hm Hk Hr. exists h'. split; [exact Hk|].
  destruct r as [st'|e], res as [act'|e']; try contradiction.
  - now exists act'.
  - now subst.
Qed.

Lemma emitListItem_sim (base : nat) (act : Activation) (h : Heap)
    (st : State) :
  Rep base act h st ->
  simulates base (heapEmitListItem act) (emitListItem st) h.
Proof.
  intros rep. rewrite emitListItem_spec.
  destruct rep as (Ht & Hf & Hlinks & Hlists & Hquotes & Hcodes & Hnd).
  destruct (listStack st) as [|top below] eqn:Estack.
  - destruct Hlists as (Hb & refs & Harr & Hfs & _). inversion Hfs; subst.
    eapply simulates_eq; [|apply keeps_refl|].
    + unfold heapEmitListItem. cbv zeta. cbn [listStackRef assignText].
      rewrite (bind_arrayLast _ [] _ _ Harr), (bind_arrayLength _ [] _ _ Harr).
      reflexivity.
    + reflexivity.
  - destruct (holds_store_top ListFrameObj base h _ top
                {| count := S (count top); list_depth := list_depth top;
                   list_tag := list_tag top |} below wrap_list Hlists)
      as (x & rest & Harr & Hx & Hbx & Hstored).
    assert (Hlen : List.length rest = List.length below).
    { destruct Hlists as (_ & refs & Harr0 & Hfs & _).
      rewrite Harr in Harr0. injection Harr0 as <-.
      apply Forall2_length in Hfs. cbn in Hfs. lia. }
    pose proof (keeps_update h x (ListFrameObj
                  {| count := S (count top); list_depth := list_depth top;
                     list_tag := list_tag top |})) as Hk.
    cbv zeta.
    assert (Hrun : exists res h',
               heapEmitListItem act h = (res, h')
               /\ (String.eqb (list_tag top) "ol" = true ->
                   h' = update h x (ListFrameObj
                          {| count := S (count top);
                             list_depth := list_depth top;
                             list_tag := list_tag top |})
                   /\ res = Ok (assignText act
                              (appendLineBreak (text st)
                                 (shouldAppendFirstLineBreak st)
                               ++ repeatString " " (List.length below * 4)
                               ++ numberToString (S (count top)) ++ ". ")))
               /\ (String.eqb (list_tag top) "ol" = false ->
                   h' = h
                   /\ res = Ok (assignText act
                              (if String.eqb (list_tag top) "ul" then
                                 appendLineBreak (text st)
                                   (shouldAppendFirstLineBreak st)
                                 ++ repeatString " " (List.length below * 4)
                                 ++ "- "
                               else appendLineBreak (text st)
                                      (shouldAppendFirstLineBreak st))))).
    { unfold heapEmitListItem. cbv zeta.
      cbn [listStackRef assignText textVar].
      rewrite (bind_arrayLast _ _ _ _ Harr), (bind_arrayLength _ _ _ _ Harr).
      cbn [hd_error List.length]. rewrite bind_lift, jsRepeat_indent, Hlen.
      rewrite (bind_loadListFrame x top _ _ Hx), Ht, Hf.
      destruct (String.eqb (list_tag top) "ol").
      - rewrite bind_store. cbn [ret count]. do 2 eexists.
        split; [reflexivity|]. split; [now split | discriminate].
      - destruct (String.eqb (list_tag top) "ul"); cbn [ret];
          do 2 eexists; (split; [reflexivity|]);
          (split; [discriminate | now split]). }
    destruct Hrun as (res & h' & Hrun & Hol & Hnot).
    destruct (String.eqb (list_tag top) "ol").
    + destruct (Hol eq_refl) as [-> ->].
      eapply simulates_eq;
        [exact Hrun | exact (keeps_below base x h _ Hbx Hk) |].
      refine (conj eq_refl (conj Hf (conj _ (conj Hstored
                (conj _ (conj _ Hnd))))));
        (eapply holds_kept_frame;
          [eassumption | exact Hk | exact Hx | discriminate | discriminate]).
    + destruct (Hnot eq_refl) as [-> ->].
      eapply simulates_eq; [exact Hrun | apply keeps_refl |].
      rewrite <- Estack in Hlists.
      destruct (String.eqb (list_tag top) "ul");
        exact (conj eq_refl (conj Hf (conj Hlinks (conj Hlists
                 (conj Hquotes (conj Hcodes Hnd)))))).
Qed.

Lemma heapDispatch_sim (base : nat) (e : Entry) (act : Activation)
    (h : Heap) (st : State) :
  Rep base act h st ->
  simulates base (heapDispatch e act) (dispatch e st) h.
Proof.
  intros rep. unfold heapDispatch, dispatch.
  pose proof (Rep_text _ _ _ _ rep) as Ht.
  pose proof (Rep_flag _ _ _ _ rep) as Hf.
  destruct (node e) as [tag|tag|cs fc|c f| | | | |url| ].
  - destruct (String.eqb tag "h1"); [|destruct (String.eqb tag "h2")];
      cbv zeta; cbn [textVar assignText text setText flagVar];
      rewrite ?Ht, ?Hf; apply simulates_ret;
      repeat apply Rep_assignText; exact rep.
  - apply push_list. exact rep.
  - destruct (negb (hasSingleListChild cs fc)).
    + now apply emitListItem_sim.
    + now apply simulates_ret.
  - destruct (holds_length LinkFrameObj base h _ _
                (proj1 (proj2 (proj2 rep)))) as (refs & Harr & Hlen).
    eapply simulates_eq; [|apply keeps_refl|].
    + rewrite (bind_arrayLength _ refs _ _ Harr). reflexivity.
    + cbv zeta. rewrite Hlen, Ht. apply Rep_assignText. exact rep.
  - cbv zeta. cbn [textVar assignText flagVar]. rewrite Ht, Hf.
    apply simulates_ret. apply Rep_assignFlag, Rep_assignText. exact rep.
  - cbv zeta. cbn [textVar assignText quoteStackRef text setText flagVar].
    rewrite Ht, Hf.
    apply (push_quote base
             (assignText
                (assignText act
                   (appendLineBreak (text st)
                      (shouldAppendFirstLineBreak st)))
                (appendLineBreak (text st) (shouldAppendFirstLineBreak st)
                 ++ "> "))).
    repeat apply Rep_assignText. exact rep.
  - cbv zeta. rewrite Ht, Hf. apply simulates_ret.
    apply Rep_assignText. exact rep.
  - cbv zeta. cbn [textVar assignText codeStackRef text setText flagVar].
    rewrite Ht, Hf.
    apply (push_code base
             (assignText
                (assignText act
                   (appendLineBreak (text st)
                      (shouldAppendFirstLineBreak st)))
                (appendLineBreak (text st) (shouldAppendFirstLineBreak st)
                 ++ "```" ++ newline))).
    repeat apply Rep_assignText. exact rep.
  - cbv zeta. cbn [textVar assignText closingBracketStackRef text setText].
    rewrite Ht.
    apply (push_link base (assignText act (text st ++ "["))).
    apply Rep_assignText. exact rep.
  - now apply simulates_ret.
Qed.

(** *** The close-out pass *)

Lemma bind_heapCloses {B : Type} (nextNode : option Entry) (topDepth : M Z)
    (d : Z) (k : bool -> M B) (h : Heap) :
  topDepth h = (Ok d, h) ->
  bindM (heapCloses nextNode topDepth) k h = k (closes nextNode d) h.
Proof.
  intros H. destruct nextNode as [n|]; cbn [heapCloses closes].
  - rewrite bind_bind. unfold bindM at 1. now rewrite H.
  - reflexivity.
Qed.

Lemma heapCloseLink_sim (base : nat) (nextNode : option Entry)
    (act : Activation) (h : Heap) (st : State) :
  Rep base act h st ->
  simulates base (heapCloseLink nextNode act)
    (Ok (closeLink nextNode st)) h.
Proof.
  intros rep.
  destruct rep as (Ht & Hf & Hlinks & Hlists & Hquotes & Hcodes & Hnd).
  destruct (NoDup_four _ _ _ _ Hnd) as (? & ? & ? & ? & ? & ?).
  unfold closeLink, heapCloseLink.
  destruct (closingBracketStack st) as [|top below] eqn:Estack.
  - destruct Hlinks as (Hb & refs & Harr & Hfs & Hrest).
    inversion Hfs; subst.
    eapply simulates_eq; [|apply keeps_refl|].
    + rewrite (bind_arrayLast _ [] _ _ Harr). reflexivity.
    + refine (conj Ht (conj Hf (conj _ (conj Hlists
                (conj Hquotes (conj Hcodes Hnd)))))).
      rewrite Estack. split; [exact Hb|]. now exists [].
  - destruct (holds_pop LinkFrameObj wrap_link base h _ top below Hlinks)
      as (x & rest & Harr & Hx & Hx' & Hbx & Hh' & Hk).
    assert (Hdepth : (f <~ loadLinkFrame (Some x) ;; ret (link_depth f)) h
                     = (Ok (link_depth top), h))
      by now rewrite (bind_loadLinkFrame x top _ _ Hx).
    destruct (closes nextNode (link_depth top)) eqn:Ec.
    + eapply simulates_eq;
        [| exact (keeps_below base _ h _ (proj1 Hlinks) Hk) |].
      * rewrite (bind_arrayLast _ _ _ _ Harr). cbn [hd_error].
        rewrite (bind_heapCloses nextNode _ _ _ h Hdepth), Ec.
        rewrite (bind_arrayPop _ _ _ _ _ Harr).
        rewrite (bind_loadLinkFrame x top _ _ Hx'). reflexivity.
      * cbn [ret]. rewrite Ht.
        refine (conj eq_refl (conj Hf (conj Hh' (conj _ (conj _
                  (conj _ Hnd))))));
          other_stack Hk Harr.
    + eapply simulates_eq; [|apply keeps_refl|].
      * rewrite (bind_arrayLast _ _ _ _ Harr). cbn [hd_error].
        rewrite (bind_heapCloses nextNode _ _ _ h Hdepth), Ec. reflexivity.
      * refine (conj Ht (conj Hf (conj _ (conj Hlists
                  (conj Hquotes (conj Hcodes Hnd)))))).
        now rewrite Estack.
Qed.

Lemma heapCloseCodeLoop_sim (base : nat) (nextNode : option Entry)
    (a : nat) (turns : nat) :
  forall (fs : list CodeFrame) (t : string) (h : Heap),
    holds CodeFrameObj base h a fs ->
    List.length fs <= turns ->
    exists h',
      heapCloseCodeLoop turns nextNode a t h
      = (Ok (snd (closeCodeLoop nextNode fs t)), h')
      /\ holds CodeFrameObj base h' a (fst (closeCodeLoop nextNode fs t))
      /\ keeps (fun y => y <> a) h h'.
Proof.
  induction turns as [|turns IH]; intros fs t h Hh Hlen.
  - destruct fs; [|cbn in Hlen; lia].
    exists h. repeat split; [exact (proj1 Hh) | exact (proj2 Hh)|].
    apply keeps_refl.
  - cbn [heapCloseCodeLoop]. destruct fs as [|f fs].
    + destruct (holds_length CodeFrameObj base h a [] Hh)
        as (refs & Harr & Hl).
      exists h. rewrite (bind_arrayLength _ _ _ _ Harr), Hl.
      split; [reflexivity|]. split; [exact Hh | apply keeps_refl].
    + destruct (holds_pop CodeFrameObj wrap_code base h a f fs Hh)
        as (x & rest & Harr & Hx & Hx' & Hbx & Hh' & Hk).
      assert (Hdepth : (top <~ arrayLast a ;;
                        g <~ loadCodeFrame top ;; ret (code_depth g)) h
                       = (Ok (code_depth f), h)).
      { rewrite (bind_arrayLast _ _ _ _ Harr). cbn [hd_error].
        now rewrite (bind_loadCodeFrame x f _ _ Hx). }
      rewrite (bind_arrayLength _ _ _ _ Harr). cbn [List.length Nat.ltb Nat.leb].
      rewrite (bind_heapCloses nextNode _ _ _ h Hdepth).
      cbn [closeCodeLoop]. destruct (closes nextNode (code_depth f)).
      * rewrite (bind_arrayPop _ _ _ _ _ Harr).
        destruct (IH fs (t ++ newline ++ "```") _ Hh')
          as (h' & Hrun & Hfinal & Hk'); [cbn in Hlen; lia|].
        exists h'. split; [exact Hrun|]. split; [exact Hfinal|].
        exact (keeps_trans _ h _ h' Hk Hk').
      * exists h. split; [reflexivity|]. split; [exact Hh | apply keeps_refl].
Qed.

Lemma heapCloseQuoteLoop_sim (base : nat) (nextNode : option Entry)
    (a : nat) (turns : nat) :
  forall (fs : list QuoteFrame) (t : string) (h : Heap),
    holds QuoteFrameObj base h a fs ->
    List.length fs <= turns ->
    exists h',
      heapCloseQuoteLoop turns nextNode a t h
      = (Ok (snd (closeQuoteLoop nextNode fs t)), h')
      /\ holds QuoteFrameObj base h' a (fst (closeQuoteLoop nextNode fs t))
      /\ keeps (fun y => y <> a) h h'.
Proof.
  induction turns as [|turns IH]; intros fs t h Hh Hlen.
  - destruct fs; [|cbn in Hlen; lia].
    exists h. repeat split; [exact (proj1 Hh) | exact (proj2 Hh)|].
    apply keeps_refl.
  - cbn [heapCloseQuoteLoop]. destruct fs as [|f fs].
    + destruct (holds_length QuoteFrameObj base h a [] Hh)
        as (refs & Harr & Hl).
      exists h. rewrite (bind_arrayLength _ _ _ _ Harr), Hl.
      split; [reflexivity|]. split; [exact Hh | apply keeps_refl].
    + destruct (holds_pop QuoteFrameObj wrap_quote base h a f fs Hh)
        as (x & rest & Harr & Hx & Hx' & Hbx & Hh' & Hk).
      assert (Hdepth : (top <~ arrayLast a ;;
                        g <~ loadQuoteFrame top ;; ret (quote_depth g)) h
                       = (Ok (quote_depth f), h)).
      { rewrite (bind_arrayLast _ _ _ _ Harr). cbn [hd_error].
        now rewrite (bind_loadQuoteFrame x f _ _ Hx). }
      rewrite (bind_arrayLength _ _ _ _ Harr). cbn [List.length Nat.ltb Nat.leb].
      rewrite (bind_heapCloses nextNode _ _ _ h Hdepth).
      cbn [closeQuoteLoop]. destruct (closes nextNode (quote_depth f)).
      * rewrite (bind_arrayPop _ _ _ _ _ Harr).
        destruct (IH fs (t ++ newline) _ Hh')
          as (h' & Hrun & Hfinal & Hk'); [cbn in Hlen; lia|].
        exists h'. split; [exact Hrun|]. split; [exact Hfinal|].
        exact (keeps_trans _ h _ h' Hk Hk').
      * exists h. split; [reflexivity|]. split; [exact Hh | apply keeps_refl].
Qed.

Lemma heapCloseListLoop_sim (base : nat) (nextNode : option Entry)
    (a : nat) (turns : nat) :
  forall (fs : list ListFrame) (h : Heap),
    holds ListFrameObj base h a fs ->
    List.length fs <= turns ->
    exists h',
      heapCloseListLoop turns nextNode a h = (Ok tt, h')
      /\ holds ListFrameObj base h' a (closeListLoop nextNode fs)
      /\ keeps (fun y => y <> a) h h'.
Proof.
  induction turns as [|turns IH]; intros fs h Hh Hlen.
  - destruct fs; [|cbn in Hlen; lia].
    exists h. repeat split; [exact (proj1 Hh) | exact (proj2 Hh)|].
    apply keeps_refl.
  - cbn [heapCloseListLoop]. destruct fs as [|f fs].
    + destruct (holds_length ListFrameObj base h a [] Hh)
        as (refs & Harr & Hl).
      exists h. rewrite (bind_arrayLength _ _ _ _ Harr), Hl.
      split; [reflexivity|]. split; [exact Hh | apply keeps_refl].
    + destruct (holds_pop ListFrameObj wrap_list base h a f fs Hh)
        as (x & rest & Harr & Hx & Hx' & Hbx & Hh' & Hk).
      assert (Hdepth : (top <~ arrayLast a ;;
                        g <~ loadListFrame top ;; ret (list_depth g)) h
                       = (Ok (list_depth f), h)).
      { rewrite (bind_arrayLast _ _ _ _ Harr). cbn [hd_error].
        now rewrite (bind_loadListFrame x f _ _ Hx). }
      rewrite (bind_arrayLength _ _ _ _ Harr). cbn [List.length Nat.ltb Nat.leb].
      rewrite (bind_heapCloses nextNode _ _ _ h Hdepth).
      cbn [closeListLoop]. destruct (closes nextNode (list_depth f)).
      * rewrite (bind_arrayPop _ _ _ _ _ Harr).
        destruct (IH fs _ Hh') as (h' & Hrun & Hfinal & Hk');
          [cbn in Hlen; lia|].
        exists h'. split; [exact Hrun|]. split; [exact Hfinal|].
        exact (keeps_trans _ h _ h' Hk Hk').
      * exists h. split; [reflexivity|]. split; [exact Hh | apply keeps_refl].
Qed.

Lemma bind_eq {A B : Type} (m : M A) (k : A -> M B) (h h' : Heap) (a : A) :
  m h = (Ok a, h') -> bindM m k h = k a h'.
Proof. intros H. unfold bindM. now rewrite H. Qed.

Lemma closeCode_eq (nextNode : option Entry) (st : State) :
  closeCode nextNode st
  = setText
      (setCodeStack st
         (fst (closeCodeLoop nextNode (codeStack st) (text st))))
      (snd (closeCodeLoop nextNode (codeStack st) (text st))).
Proof.
  unfold closeCode. now destruct (closeCodeLoop nextNode _ _).
Qed.

Lemma closeQuote_eq (nextNode : option Entry) (st : State) :
  closeQuote nextNode st
  = setText
      (setQuoteStack st
         (fst (closeQuoteLoop nextNode (quoteStack st) (text st))))
      (snd (closeQuoteLoop nextNode (quoteStack st) (text st))).
Proof.
  unfold closeQuote. now destruct (closeQuoteLoop nextNode _ _).
Qed.

Lemma heapCloseOut_sim (base : nat) (nextNode : option Entry)
    (act : Activation) (h : Heap) (st : State) :
  Rep base act h st ->
  simulates base (heapCloseOut nextNode act) (Ok (closeOut nextNode st)) h.
Proof.
  intros rep.
  destruct (heapCloseLink_sim base nextNode act h st rep)
    as (h1 & Hk1 & act1 & Hrun1 & rep1).
  destruct rep1 as (Ht & Hf & Hlinks & Hlists & Hquotes & Hcodes & Hnd).
  destruct (NoDup_four _ _ _ _ Hnd) as (? & ? & ? & ? & ? & ?).
  set (st1 := closeLink nextNode st) in *.
  (* the code frames *)
  destruct (holds_length CodeFrameObj base h1 _ _ Hcodes)
    as (crefs & Hcarr & Hclen).
  destruct (heapCloseCodeLoop_sim base nextNode (codeStackRef act1)
              (List.length crefs) (codeStack st1) (textVar act1) h1 Hcodes)
    as (h2 & Hrun2 & Hcodes2 & Hk2); [lia|].
  assert (Hlinks2 : holds LinkFrameObj base h2 (closingBracketStackRef act1)
                      (closingBracketStack st1)) by other_stack Hk2 Hcarr.
  assert (Hlists2 : holds ListFrameObj base h2 (listStackRef act1)
                      (listStack st1)) by other_stack Hk2 Hcarr.
  assert (Hquotes2 : holds QuoteFrameObj base h2 (quoteStackRef act1)
                       (quoteStack st1)) by other_stack Hk2 Hcarr.
  (* the list frames *)
  destruct (holds_length ListFrameObj base h2 _ _ Hlists2)
    as (lrefs & Hlarr & Hllen).
  destruct (heapCloseListLoop_sim base nextNode (listStackRef act1)
              (List.length lrefs) (listStack st1) h2 Hlists2)
    as (h3 & Hrun3 & Hlists3 & Hk3); [lia|].
  assert (Hlinks3 : holds LinkFrameObj base h3 (closingBracketStackRef act1)
                      (closingBracketStack st1)) by other_stack Hk3 Hlarr.
  assert (Hquotes3 : holds QuoteFrameObj base h3 (quoteStackRef act1)
                       (quoteStack st1)) by other_stack Hk3 Hlarr.
  assert (Hcodes3 : holds CodeFrameObj base h3 (codeStackRef act1)
                      (fst (closeCodeLoop nextNode (codeStack st1)
                              (textVar act1))))
    by other_stack Hk3 Hlarr.
  (* the quote frames *)
  destruct (holds_length QuoteFrameObj base h3 _ _ Hquotes3)
    as (qrefs & Hqarr & Hqlen).
  destruct (heapCloseQuoteLoop_sim base nextNode (quoteStackRef act1)
              (List.length qrefs) (quoteStack st1)
              (snd (closeCodeLoop nextNode (codeStack st1) (textVar act1)))
              h3 Hquotes3)
    as (h4 & Hrun4 & Hquotes4 & Hk4); [lia|].
  assert (Hlinks4 : holds LinkFrameObj base h4 (closingBracketStackRef act1)
                      (closingBracketStack st1)) by other_stack Hk4 Hqarr.
  assert (Hlists4 : holds ListFrameObj base h4 (listStackRef act1)
                      (closeListLoop nextNode (listStack st1)))
    by other_stack Hk4 Hqarr.
  assert (Hcodes4 : holds CodeFrameObj base h4 (codeStackRef act1)
                      (fst (closeCodeLoop nextNode (codeStack st1)
                              (textVar act1))))
    by other_stack Hk4 Hqarr.
  eapply simulates_eq.
  - unfold heapCloseOut. rewrite (bind_eq _ _ h h1 act1 Hrun1).
    rewrite (bind_arrayLength _ _ _ _ Hcarr).
    rewrite (bind_eq _ _ h1 h2 _ Hrun2). cbv zeta. projections.
    rewrite (bind_arrayLength _ _ _ _ Hlarr).
    rewrite (bind_eq _ _ h2 h3 _ Hrun3).
    rewrite (bind_arrayLength _ _ _ _ Hqarr).
    rewrite (bind_eq _ _ h3 h4 _ Hrun4). reflexivity.
  - apply (keeps_trans _ h h1 h4 Hk1).
    apply (keeps_trans _ h1 h2 h4);
      [exact (keeps_below base _ _ _ (proj1 Hcodes) Hk2)|].
    apply (keeps_trans _ h2 h3 h4);
      [exact (keeps_below base _ _ _ (proj1 Hlists) Hk3)|].
    exact (keeps_below base _ _ _ (proj1 Hquotes) Hk4).
  - unfold closeOut. fold st1.
    rewrite closeQuote_eq. unfold closeList. rewrite closeCode_eq.
    unfold Rep. projections. rewrite <- Ht.
    exact (conj eq_refl (conj Hf (conj Hlinks4 (conj Hlists4
             (conj Hquotes4 (conj Hcodes4 Hnd)))))).
Qed.

(** *** The loop and the call *)

Lemma simulates_bind (base : nat) (m : M Activation) (r : Result State)
    (k : Activation -> M Activation) (k' : State -> Result State)
    (h : Heap) :
  simulates base m r h ->
  (forall act' h' st',
      Rep base act' h' st' -> simulates base (k act') (k' st') h') ->
  simulates base (bindM m k) (bind r k') h.
Proof.
  intros (h1 & Hk1 & Hr) Hcont. destruct r as [st'|e]; cbn [bind].
  - destruct Hr as (act' & Hm & rep').
    destruct (Hcont act' h1 st' rep') as (h2 & Hk2 & Hres).
    exists h2. split; [exact (keeps_trans _ h h1 h2 Hk1 Hk2)|].
    now rewrite (bind_eq m k h h1 act' Hm).
  - exists h1. split; [exact Hk1|]. unfold bindM. now rewrite Hr.
Qed.

Lemma heapIterationAt_sim (base : nat) (nodes : list Entry) (i : nat)
    (act : Activation) (h : Heap) (st : State) :
  Rep base act h st ->
  simulates base (heapIterationAt nodes i act) (iterationAt nodes i st) h.
Proof.
  intros rep. unfold heapIterationAt, iterationAt.
  destruct (nth_error nodes i) as [e|]; [|now apply simulates_ret].
  unfold heapIteration, iteration.
  apply simulates_bind; [now apply heapDispatch_sim|].
  intros act' h' st' rep'. now apply heapCloseOut_sim.
Qed.

Lemma heapRunTo_sim (base : nat) (nodes : list Entry) (k : nat)
    (act : Activation) (h : Heap) :
  Rep base act h initialState ->
  simulates base (heapRunTo nodes k act) (runTo nodes k) h.
Proof.
  intros rep. induction k as [|k IH]; cbn [heapRunTo runTo].
  - now apply simulates_ret.
  - apply simulates_bind; [exact IH|].
    intros act' h' st' rep'. now apply heapIterationAt_sim.
Qed.

Lemma nth_error_last (h : Heap) (o : Obj) :
  nth_error (h ++ [o])%list (List.length h) = Some o.
Proof. rewrite nth_error_app2 by lia. now rewrite Nat.sub_diag. Qed.

Lemma holds_fresh_array {F : Type} (wrap : F -> Obj) (base : nat) (h : Heap)
    (a : nat) :
  base <= a -> nth_error h a = Some (ArrayObj []) ->
  holds wrap base h a [].
Proof.
  intros Hb Ha. split; [exact Hb|]. exists [].
  split; [exact Ha|]. split; [constructor|]. split; constructor.
Qed.

Lemma keeps_firstn (h h' : Heap) :
  keeps (fun x => x < List.length h) h h' ->
  firstn (List.length h) h' = h.
Proof.
  intros Hk. apply nth_error_ext. intros n. rewrite nth_error_firstn.
  destruct (n <? List.length h)%nat eqn:E.
  - apply Nat.ltb_lt in E.
    destruct (nth_error h n) as [o|] eqn:Ho;
      [|apply nth_error_None in Ho; lia].
    now apply Hk.
  - apply Nat.ltb_ge in E. symmetry. now apply nth_error_None.
Qed.

(** The call on the heap returns what the function without heap returns,
    and keeps the objects it found. *)
Lemma heapConvertToMarkdownString_spec (nodes : list Entry) (h : Heap) :
  exists h',
    heapConvertToMarkdownString nodes h = (convertToMarkdownString nodes, h')
    /\ keeps (fun x => x < List.length h) h h'.
Proof.
  unfold heapConvertToMarkdownString. rewrite !bind_alloc.
  set (h1 := (h ++ [ArrayObj []])%list).
  set (h2 := (h1 ++ [ArrayObj []])%list).
  set (h3 := (h2 ++ [ArrayObj []])%list).
  set (h4 := (h3 ++ [ArrayObj []])%list).
  assert (L1 : List.length h1 = S (List.length h))
    by (unfold h1; rewrite length_app; cbn; lia).
  assert (L2 : List.length h2 = S (S (List.length h)))
    by (unfold h2; rewrite length_app; cbn; lia).
  assert (L3 : List.length h3 = S (S (S (List.length h))))
    by (unfold h3; rewrite length_app; cbn; lia).
  assert (A1 : nth_error h4 (List.length h) = Some (ArrayObj [])).
  { apply (keeps_alloc (fun _ => True) h3), (keeps_alloc (fun _ => True) h2),
      (keeps_alloc (fun _ => True) h1); auto. apply nth_error_last. }
  assert (A2 : nth_error h4 (List.length h1) = Some (ArrayObj [])).
  { apply (keeps_alloc (fun _ => True) h3), (keeps_alloc (fun _ => True) h2);
      auto. apply nth_error_last. }
  assert (A3 : nth_error h4 (List.length h2) = Some (ArrayObj [])).
  { apply (keeps_alloc (fun _ => True) h3); auto. apply nth_error_last. }
  assert (A4 : nth_error h4 (List.length h3) = Some (ArrayObj []))
    by apply nth_error_last.
  assert (K : keeps (fun x => x < List.length h) h h4).
  { apply (keeps_trans _ h h1 h4); [apply keeps_alloc|].
    apply (keeps_trans _ h1 h2 h4); [apply keeps_alloc|].
    apply (keeps_trans _ h2 h3 h4); apply keeps_alloc. }
  set (act0 := {| textVar := ""; flagVar := false;
                  closingBracketStackRef := List.length h;
                  listStackRef := List.length h1;
                  quoteStackRef := List.length h2;
                  codeStackRef := List.length h3 |}).
  assert (rep0 : Rep (List.length h) act0 h4 initialState).
  { refine (conj eq_refl (conj eq_refl (conj _ (conj _ (conj _
              (conj _ _))))));
      try (apply holds_fresh_array; cbn [act0 closingBracketStackRef
             listStackRef quoteStackRef codeStackRef]; [lia | assumption]).
    cbn [act0 closingBracketStackRef listStackRef quoteStackRef
         codeStackRef].
    rewrite L1, L2, L3.
    repeat (apply NoDup_cons; [cbn; lia|]). constructor. }
  destruct (heapRunTo_sim (List.length h) nodes (List.length nodes)
              act0 h4 rep0) as (h' & Hk & Hres).
  exists h'. split; [|exact (keeps_trans _ h h4 h' K Hk)].
  unfold convertToMarkdownString.
  destruct (runTo nodes (List.length nodes)) as [st|e].
  - destruct Hres as (act' & Hrun & rep').
    rewrite (bind_eq _ _ h4 h' act' Hrun). cbn [bind ret].
    now rewrite (Rep_text _ _ _ _ rep').
  - unfold bindM. now rewrite Hres.
Qed.

Lemma session_map (calls : list (list Entry)) (h : Heap) :
  session calls h = map convertToMarkdownString calls.
Proof.
  revert h. induction calls as [|nodes calls IH]; intros h; [reflexivity|].
  cbn [session map].
  destruct (heapConvertToMarkdownString_spec nodes h) as (h' & -> & _).
  now rewrite IH.
Qed.

(** ** Turns after which nothing closes *)


Section FlatTurns.

Variable nodes : list Entry.
Hypothesis enclosed : listItemsEnclosed nodes = true.
Hypothesis flat : linksNotNested nodes = true.




End FlatTurns.



(** * Main results *)

(** ** Output growth *)

(** C10. The empty input gives the empty string.  One turn of the loop only
    appends to the output, so the output after any number of turns is a
    prefix of the output of the call. *)
Theorem output_grows :
  convertToMarkdownString [] = Ok ""
  /\ (forall e nextNode st st',
         iteration e nextNode st = Ok st' ->
         prefix (text st) (text st') = true)
  /\ (forall nodes k out,
         k <= List.length nodes ->
         convertToMarkdownString nodes = Ok out ->
         exists st, runTo nodes k = Ok st /\ prefix (text st) out = true).
Proof.
  split; [reflexivity|]. split.
  - intros e nextNode st st' H.
    destruct (iteration_grows e nextNode st st' H) as [s ->].
    apply prefix_append.
  - intros nodes k out Hk H. unfold convertToMarkdownString in H.
    destruct (runTo nodes (List.length nodes)) as [final|] eqn:E;
      [|discriminate].
    cbn [bind] in H. injection H as <-.
    destruct (runTo_grows nodes k _ final Hk E) as (st & s & Hrun & ->).
    exists st. split; [exact Hrun | apply prefix_append].
Qed.

Lemma output_grows_witness :
  exists st, runTo sampleQuote 3 = Ok st
             /\ prefix (text st)
                  ("> q" ++ newline ++ newline ++ "**`p`**") = true.
Proof.
  apply (proj2 (proj2 output_grows) sampleQuote 3).
  - vm_compute. lia.
  - reflexivity.
Defined.

(** ** Independence of calls *)

(** C9. The call allocates its four arrays and every frame itself, reads and
    writes no object it has not allocated, and leaves the objects it found
    as they were.  So what it returns does not depend on the heap earlier
    calls have left: it is the result of the function of the input alone,
    and two calls on the same input, anywhere in a sequence of calls, return
    the same. *)
Theorem calls_are_independent :
  (forall nodes h1 h2,
      fst (heapConvertToMarkdownString nodes h1)
      = fst (heapConvertToMarkdownString nodes h2))
  /\ (forall nodes h,
         fst (heapConvertToMarkdownString nodes h)
         = convertToMarkdownString nodes)
  /\ (forall nodes h,
         firstn (List.length h) (snd (heapConvertToMarkdownString nodes h))
         = h)
  /\ (forall calls h i j nodes,
         nth_error calls i = Some nodes ->
         nth_error calls j = Some nodes ->
         nth_error (session calls h) i = nth_error (session calls h) j).
Proof.
  assert (Hfst : forall nodes h,
             fst (heapConvertToMarkdownString nodes h)
             = convertToMarkdownString nodes).
  { intros nodes h.
    destruct (heapConvertToMarkdownString_spec nodes h) as (h' & -> & _).
    reflexivity. }
  split; [|split; [exact Hfst|split]].
  - intros nodes h1 h2. now rewrite !Hfst.
  - intros nodes h.
    destruct (heapConvertToMarkdownString_spec nodes h) as (h' & -> & Hk).
    now apply keeps_firstn.
  - intros calls h i j nodes Hi Hj.
    now rewrite session_map, !nth_error_map, Hi, Hj.
Qed.

Lemma calls_are_independent_witness :
  nth_error (session [sampleQuote; sampleStrayItem; sampleQuote] sampleHeap) 0
  = nth_error (session [sampleQuote; sampleStrayItem; sampleQuote] sampleHeap)
      2.
Proof.
  exact (proj2 (proj2 (proj2 calls_are_independent))
           [sampleQuote; sampleStrayItem; sampleQuote] sampleHeap 0 2
           sampleQuote eq_refl eq_refl).
Defined.

(** ** Text runs *)

(** C4. A text node appends its content, escaped character by character when
    the link stack is not empty and untouched when it is empty, wrapped first
    in backquotes, then in double stars, then in single stars, then in double
    tildes, each when the node has the format. *)
Theorem text_emission (d : Z) (content : string)
    (format : list TextFormatType) (st : State) :
  dispatch (ent d (TextNode content format)) st
  = Ok (setText st
          (text st
           ++ wrapIf (hasFormat format strikethrough) "~~"
                (wrapIf (hasFormat format italic) "*"
                   (wrapIf (hasFormat format bold) "**"
                      (wrapIf (hasFormat format code) "`"
                         (match closingBracketStack st with
                          | [] => content
                          | _ :: _ => escapeLinkText content
                          end)))))).
Proof.
  unfold dispatch. cbn [node ent]. do 3 f_equal.
  unfold formatText, wrapIf. rewrite encodeURLTitle_escapeLinkText.
  destruct (closingBracketStack st); reflexivity.
Qed.

(** ** Link targets *)

(** C5. A link node pushes a frame whose closing text is the target between
    [](] and [)], with each [)] of the target replaced by [%29] and every
    other character kept: the encoded target has no [)] left, and [%29]
    starts in it once for each [)] of the target, besides the places where
    the target had it already. *)
Theorem link_closing_text (d : Z) (url : string) (st : State) :
  dispatch (ent d (LinkNode url)) st
  = Ok {| text := text st ++ "[";
          shouldAppendFirstLineBreak := shouldAppendFirstLineBreak st;
          closingBracketStack :=
            {| link_depth := d; endText := "](" ++ percentEncode url ++ ")" |}
              :: closingBracketStack st;
          listStack := listStack st;
          quoteStack := quoteStack st;
          codeStack := codeStack st |}
  /\ encodeURL url = percentEncode url
  /\ countChar ")" (percentEncode url) = 0
  /\ occurrences "%29" (percentEncode url)
     = occurrences "%29" url + countChar ")" url.
Proof.
  rewrite <- encodeURL_percentEncode. repeat split.
  - apply encodeURL_no_paren.
  - apply encodeURL_occurrences.
Qed.

(** ** A link inside a link *)

(** C2.  The close-out pass closes the link stack with one [if] (lines 122
    to 128) and the other three stacks with [while] loops, so it pops at
    most one link frame a turn.  In [sampleNestedLinks] the frame of the
    outer link (position 2) and the frame of the enclosing code block
    (position 1) both meet their first closing position at turn 4.  With
    both links closed before the code block that turn would append
    [](b)](a)] and then the fence; it appends [](b)] and the fence, and the
    closing text of the outer link is written one turn later, after the
    fence. *)
Lemma nested_link_closes_after_the_fence :
  wellFormed sampleNestedLinks = true
  /\ In 2 (closedAt isLink sampleNestedLinks 4)
  /\ In 1 (closedAt isCode sampleNestedLinks 4)
  /\ linkClosingsAt sampleNestedLinks 4 = "](b)](a)"
  /\ (exists st mid st',
        runTo sampleNestedLinks 4 = Ok st
        /\ dispatch (ent 4 (TextNode "x" [])) st = Ok mid
        /\ runTo sampleNestedLinks 5 = Ok st'
        /\ text st' = text mid ++ "](b)" ++ fence
        /\ text st'
           <> text mid ++ linkClosingsAt sampleNestedLinks 4
              ++ repeatString fence
                   (List.length (closedAt isCode sampleNestedLinks 4))
              ++ repeatString newline
                   (List.length (closedAt isQuote sampleNestedLinks 4))
        /\ closingBracketStack st'
           = [ {| link_depth := 2; endText := "](a)" |} ])
  /\ convertToMarkdownString sampleNestedLinks
     = Ok ("```" ++ newline ++ "[[x](b)" ++ newline ++ "```"
             ++ newline ++ "](a)" ++ "y").
Proof.
  split; [reflexivity|]. split; [vm_compute; tauto|].
  split; [vm_compute; tauto|]. split; [reflexivity|]. split; [|reflexivity].
  do 3 eexists. split; [reflexivity|]. split; [reflexivity|].
  split; [reflexivity|]. split; [reflexivity|]. split; [|reflexivity].
  intros H. vm_compute in H. discriminate H.
Qed.

(** C1.  A link frame is not always popped at its first closing position:
    the close-out pass tests the link stack with one [if] (lines 122 to 128)
    and pops at most one link frame a turn.  In [sampleNestedLinks] both
    links meet their first closing position at turn 4, no link should be
    open after that turn, and the frame of the outer one is still on the
    stack.  In [sampleUnclosedLink] the document ends at that turn: the
    outer frame is never popped and its closing text is never written. *)
Lemma nested_link_frame_is_left_open :
  wellFormed sampleNestedLinks = true
  /\ closedAt isLink sampleNestedLinks 4 = [2; 3]
  /\ openFrames isLink sampleNestedLinks 5 = []
  /\ (exists st,
        runTo sampleNestedLinks 5 = Ok st
        /\ closingBracketStack st
           = [ {| link_depth := 2; endText := "](a)" |} ]
        /\ closingBracketStack st
           <> map (linkFrameAt sampleNestedLinks)
                (rev (openFrames isLink sampleNestedLinks 5)))
  /\ wellFormed sampleUnclosedLink = true
  /\ closedAt isLink sampleUnclosedLink 4 = [2; 3]
  /\ (exists st,
        runTo sampleUnclosedLink (List.length sampleUnclosedLink) = Ok st
        /\ closingBracketStack st
           = [ {| link_depth := 2; endText := "](a)" |} ])
  /\ convertToMarkdownString sampleUnclosedLink = Ok "[[x](b)"
  /\ occurrences "](a)" "[[x](b)" = 0.
Proof.
  split; [reflexivity|]. split; [reflexivity|]. split; [reflexivity|].
  split.
  { eexists. split; [reflexivity|]. split; [reflexivity|].
    intros H. vm_compute in H. discriminate H. }
  split; [reflexivity|]. split; [reflexivity|]. split.
  { eexists. split; reflexivity. }
  split; reflexivity.
Qed.


(** ** Totality *)

(** C3. On well-formed input the call returns a string.  The emission raises
    only for a list item met on an empty list stack, and at every list item
    of the input the list stack is not empty; a node of no recognised kind
    leaves the state as it is. *)
Theorem no_exception_on_well_formed_input (nodes : list Entry) :
  wellFormed nodes = true ->
  (exists out, convertToMarkdownString nodes = Ok out)
  /\ (forall e st x,
         dispatch e st = Throw x ->
         isListItem (node e) = true /\ listStack st = [] /\ x = RangeError)
  /\ (forall k e,
         nth_error nodes k = Some e -> isListItem (node e) = true ->
         exists st mid,
           runTo nodes k = Ok st /\ listStack st <> []
           /\ dispatch e st = Ok mid)
  /\ (forall d st, dispatch (ent d OtherNode) st = Ok st).
Proof.
  intros Hwf. apply wellFormed_enclosed in Hwf. split; [|split; [|split]].
  - destruct (runTo_final nodes Hwf) as (final & Hr & _).
    exists (text final). unfold convertToMarkdownString. now rewrite Hr.
  - intros e st x H. now apply dispatch_throws.
  - intros k e He Hitem.
    assert (Hk : k < List.length nodes).
    { apply nth_error_Some. now rewrite He. }
    destruct (turn_at nodes k Hwf Hk)
      as (e' & st & mid & He' & Hr & Hst & Hd & _).
    rewrite He in He'. injection He' as <-.
    exists st, mid. repeat split; try assumption.
    destruct Hst as (_ & _ & Hl). rewrite Hl. intros Hnil.
    apply map_eq_nil in Hnil.
    apply (enclosed_at nodes Hwf k e He Hitem).
    apply (f_equal (@rev nat)) in Hnil. now rewrite rev_involutive in Hnil.
  - reflexivity.
Qed.

Lemma no_exception_on_well_formed_input_witness :
  exists out, convertToMarkdownString sampleLists = Ok out.
Proof.
  exact (proj1 (no_exception_on_well_formed_input sampleLists eq_refl)).
Defined.

(** ** Counters of ordered lists *)

(** C6. On well-formed input a list node pushes a frame whose counter is 0,
    and the counter of every open list is the number of markers written for
    it so far.  A list item that gets a marker takes it from the innermost
    open list; when that list is ordered the marker is the indent, one more
    than the number of markers the list has given before, a dot and a space,
    so it is [1. ] for the first such item of the list, whatever the other
    lists of the document have counted. *)
Theorem ordered_items_count_from_one (nodes : list Entry) :
  wellFormed nodes = true ->
  (forall k,
      k <= List.length nodes ->
      exists st,
        runTo nodes k = Ok st
        /\ listStack st
           = map (listFrameAt nodes k) (rev (openFrames isList nodes k)))
  /\ (forall k e tag,
         nth_error nodes k = Some e -> node e = ListNode tag ->
         exists st,
           runTo nodes k = Ok st
           /\ dispatch e st
              = Ok (setListStack st
                      ({| count := 0; list_depth := depth e;
                          list_tag := tag |} :: listStack st)))
  /\ (forall k e childrenSize firstChildIsList,
         nth_error nodes k = Some e ->
         node e = ListItemNode childrenSize firstChildIsList ->
         hasSingleListChild childrenSize firstChildIsList = false ->
         exists i st mid,
           markerOwner nodes k = Some i
           /\ runTo nodes k = Ok st
           /\ dispatch e st = Ok mid
           /\ (tagAt nodes i = "ol" ->
               text mid
               = appendLineBreak (text st) (shouldAppendFirstLineBreak st)
                 ++ repeatString " "
                      ((List.length (openFrames isList nodes k) - 1) * 4)
                 ++ numberToString (S (markersBefore nodes i k)) ++ ". "
               /\ ((forall j, j < k -> markerOwner nodes j <> Some i) ->
                   numberToString (S (markersBefore nodes i k)) = "1"))).
Proof.
  intros Hwf. apply wellFormed_enclosed in Hwf. split; [|split].
  - intros k Hk.
    destruct (run_invariant nodes Hwf k Hk) as (st & Hr & _ & _ & Hl).
    now exists st.
  - intros k e tag He Hn.
    assert (Hk : k < List.length nodes).
    { apply nth_error_Some. now rewrite He. }
    destruct (run_invariant nodes Hwf k) as (st & Hr & _); [lia|].
    exists st. split; [exact Hr|]. unfold dispatch. now rewrite Hn.
  - intros k e cs fc He Hn Hsingle.
    assert (Hk : k < List.length nodes).
    { apply nth_error_Some. now rewrite He. }
    destruct (turn_at nodes k Hwf Hk)
      as (e' & st & mid & He' & Hr & Hst & Hd & _).
    rewrite He in He'. injection He' as <-.
    destruct Hst as (_ & _ & Hl).
    assert (Hitem : isListItem (node e) = true) by now rewrite Hn.
    pose proof (enclosed_at nodes Hwf k e He Hitem) as Hopen.
    assert (Hown : markerOwner nodes k
                   = hd_error (rev (openFrames isList nodes k))).
    { unfold markerOwner. now rewrite (nodeAt_nth nodes k e He), Hn, Hsingle. }
    assert (Hlen : List.length (openFrames isList nodes k)
                   = List.length (rev (openFrames isList nodes k)))
      by now rewrite length_rev.
    destruct (rev (openFrames isList nodes k)) as [|i rest] eqn:Erev.
    { exfalso. apply Hopen.
      apply (f_equal (@rev nat)) in Erev. now rewrite rev_involutive in Erev. }
    exists i, st, mid. repeat (split; [assumption|]).
    intros Hol. split.
    + unfold dispatch in Hd. rewrite Hn, Hsingle in Hd. cbn [negb] in Hd.
      rewrite emitListItem_spec, Hl in Hd. cbn [map] in Hd. cbv zeta in Hd.
      cbn [list_tag listFrameAt count] in Hd. rewrite Hol in Hd.
      cbn [String.eqb] in Hd.
      injection Hd as <-. cbn [text].
      rewrite length_map, Hlen. cbn [List.length].
      now replace (S (List.length rest) - 1) with (List.length rest) by lia.
    + intros Hfirst. now rewrite (markersBefore_zero nodes i k Hfirst).
Qed.

Lemma ordered_items_count_from_one_witness :
  exists st,
    runTo sampleLists 12 = Ok st
    /\ listStack st
       = map (listFrameAt sampleLists 12)
           (rev (openFrames isList sampleLists 12)).
Proof.
  apply (proj1 (ordered_items_count_from_one sampleLists eq_refl) 12).
  vm_compute. lia.
Defined.

(** ** Code fences *)

(** C7. On well-formed input a code node writes the opening fence once,
    after the line break it asks for, and pushes one frame; that frame has
    exactly one first closing position, which is the position of the node
    itself when the next entry is missing or not deeper.  The close-out pass
    of each turn writes, after the closing text of the link frame it pops if
    it pops one, one closing fence for each code frame whose first closing
    position is that turn, and then the line breaks of the quotes.  Summed
    over the turns, the closing fences are as many as the code nodes, and no
    code frame is left at the end. *)
Theorem code_fences_balanced (nodes : list Entry) :
  wellFormed nodes = true ->
  (forall k e,
      nth_error nodes k = Some e -> node e = CodeNode ->
      exists st mid,
        runTo nodes k = Ok st
        /\ dispatch e st = Ok mid
        /\ text mid
           = appendLineBreak (text st) (shouldAppendFirstLineBreak st)
             ++ openingFence
        /\ codeStack mid = {| code_depth := depth e |} :: codeStack st
        /\ (closes (nth_error nodes (S k)) (depth e) = true ->
            In k (closedAt isCode nodes k))
        /\ exists k',
             k <= k' < List.length nodes
             /\ In k (closedAt isCode nodes k')
             /\ forall k'', In k (closedAt isCode nodes k'') -> k'' = k')
  /\ (forall k,
         k < List.length nodes ->
         exists e st mid st',
           nth_error nodes k = Some e
           /\ runTo nodes k = Ok st
           /\ dispatch e st = Ok mid
           /\ runTo nodes (S k) = Ok st'
           /\ text st'
              = text mid
                ++ linkClosing (nth_error nodes (S k))
                     (closingBracketStack mid)
                ++ repeatString fence (List.length (closedAt isCode nodes k))
                ++ repeatString newline
                     (List.length (closedAt isQuote nodes k))
           /\ codeStack st'
              = map (codeFrameAt nodes) (rev (openFrames isCode nodes (S k))))
  /\ list_sum (map (fun k => List.length (closedAt isCode nodes k))
                 (seq 0 (List.length nodes)))
     = List.length (filter (fun e => isCode (node e)) nodes)
  /\ exists final,
       runTo nodes (List.length nodes) = Ok final /\ codeStack final = [].
Proof.
  intros Hwf. apply wellFormed_enclosed in Hwf. split; [|split; [|split]].
  - intros k e He Hn.
    assert (Hk : k < List.length nodes).
    { apply nth_error_Some. now rewrite He. }
    destruct (turn_at nodes k Hwf Hk)
      as (e' & st & mid & He' & Hr & Hst & Hd & _).
    rewrite He in He'. injection He' as <-.
    assert (Hkind : isCode (nodeAt nodes k) = true)
      by now rewrite (nodeAt_nth nodes k e He), Hn.
    exists st, mid. repeat (split; [assumption|]).
    split; [apply (dispatch_block e st mid); [now rewrite Hn | exact Hd]|].
    split; [rewrite (dispatch_codeStack e st mid Hd); now rewrite Hn|].
    split.
    + intros Hc. apply closedAt_firstClosing. split; [exact Hkind|].
      repeat split; [lia | apply staysOpen_refl |].
      now rewrite (depthAt_nth nodes k e He).
    + destruct (firstClosing_exists nodes k Hk) as (k' & Hk' & Hf).
      exists k'. split; [exact Hk'|]. split.
      * apply closedAt_firstClosing. now split.
      * intros k'' Hk''. apply closedAt_firstClosing in Hk''.
        destruct Hk'' as [_ Hf'].
        apply (firstClosing_unique nodes k k'' k' Hf' Hf).
  - intros k Hk.
    destruct (turn_at nodes k Hwf Hk)
      as (e & st & mid & He & Hr & Hst & Hd & Hp & Hr').
    exists e, st, mid, (closeOut (nth_error nodes (S k)) mid).
    repeat (split; [assumption|]).
    split; [now apply closeOut_text|].
    now apply closeOut_stacks.
  - pose proof (closedAt_count nodes isCode (List.length nodes)) as Hc.
    rewrite openFrames_end, count_positions in Hc. cbn [List.length] in Hc.
    lia.
  - destruct (runTo_final nodes Hwf) as (final & Hr & Hc & _).
    now exists final.
Qed.

Lemma code_fences_balanced_witness :
  (exists st mid,
      runTo sampleCode 1 = Ok st
      /\ dispatch (ent 1 CodeNode) st = Ok mid
      /\ text mid
         = appendLineBreak (text st) (shouldAppendFirstLineBreak st)
           ++ openingFence
      /\ codeStack mid = {| code_depth := 1 |} :: codeStack st
      /\ (closes (nth_error sampleCode 2) 1 = true ->
          In 1 (closedAt isCode sampleCode 1))
      /\ exists k',
           1 <= k' < List.length sampleCode
           /\ In 1 (closedAt isCode sampleCode k')
           /\ forall k'', In 1 (closedAt isCode sampleCode k'') -> k'' = k')
  /\ (exists e st mid st',
         nth_error sampleCode 4 = Some e
         /\ runTo sampleCode 4 = Ok st
         /\ dispatch e st = Ok mid
         /\ runTo sampleCode 5 = Ok st'
         /\ text st'
            = text mid
              ++ linkClosing (nth_error sampleCode 5)
                   (closingBracketStack mid)
              ++ repeatString fence
                   (List.length (closedAt isCode sampleCode 4))
              ++ repeatString newline
                   (List.length (closedAt isQuote sampleCode 4))
         /\ codeStack st'
            = map (codeFrameAt sampleCode)
                (rev (openFrames isCode sampleCode 5))).
Proof.
  split.
  - exact (proj1 (code_fences_balanced sampleCode eq_refl) 1
             (ent 1 CodeNode) eq_refl eq_refl).
  - apply (proj1 (proj2 (code_fences_balanced sampleCode eq_refl)) 4).
    vm_compute. lia.
Defined.

(** ** The line after a quote *)




(** ** Worked documents *)

Example quote_then_paragraph :
  convertToMarkdownString sampleQuote
  = Ok ("> q" ++ newline ++ newline ++ "**`p`**").
Proof. reflexivity. Qed.

Example sibling_ordered_lists :
  convertToMarkdownString sampleLists
  = Ok ("1. a" ++ newline ++ "    - b" ++ newline ++ "2. c"
          ++ newline ++ "1. d").
Proof. reflexivity. Qed.

Example code_blocks :
  convertToMarkdownString sampleCode
  = Ok ("```" ++ newline ++ newline ++ "```"
          ++ newline ++ "```" ++ newline ++ "[x\[y\]](u%29v)" ++ newline ++ "```"
          ++ newline ++ "```" ++ newline ++ "z" ++ newline ++ "```").
Proof. reflexivity. Qed.

Example quote_then_list :
  convertToMarkdownString sampleQuoteList
  = Ok ("> q" ++ newline ++ newline ++ "- a").
Proof. reflexivity. Qed.

Example list_item_outside_a_list :
  convertToMarkdownString [ent 0 OtherNode; ent 1 (ListItemNode 1 false)]
  = Throw RangeError.
Proof. reflexivity. Qed.

(** * Further results *)

(** ** The two escaping helpers *)

Lemma countChar_append (c : ascii) (a b : string) :
  countChar c (a ++ b) = countChar c a + countChar c b.
Proof.
  induction a as [|x a IH]; cbn [append countChar]; [reflexivity|].
  rewrite IH. lia.
Qed.

Lemma encodeURL_append (a b : string) :
  encodeURL (a ++ b) = encodeURL a ++ encodeURL b.
Proof. apply replaceAll_append. Qed.

Lemma replaceAll_absent (c : ascii) (r s : string) :
  countChar c s = 0 -> replaceAll c r s = s.
Proof.
  induction s as [|a s IH]; cbn [countChar replaceAll]; [reflexivity|].
  destruct (Ascii.eqb a c); [discriminate|].
  intros H. now rewrite IH.
Qed.

(** X1. [encodeURL] works piece by piece, is the identity on a target
    without [)], changes nothing when applied a second time, and makes the
    target two characters longer for each [)]. *)
Theorem encodeURL_facts (a b : string) :
  encodeURL (a ++ b) = encodeURL a ++ encodeURL b
  /\ (countChar ")" a = 0 -> encodeURL a = a)
  /\ encodeURL (encodeURL a) = encodeURL a
  /\ String.length (encodeURL a) = String.length a + 2 * countChar ")" a.
Proof.
  split; [apply encodeURL_append|]. split; [apply replaceAll_absent|]. split.
  - apply replaceAll_absent, encodeURL_no_paren.
  - unfold encodeURL. induction a as [|x a IH]; [reflexivity|].
    cbn [replaceAll countChar]. destruct (Ascii.eqb x ")").
    + rewrite length_append, IH. cbn. lia.
    + cbn [String.length]. rewrite IH. lia.
Qed.

Lemma encodeURL_facts_witness : encodeURL "a/b" = "a/b".
Proof.
  exact (proj1 (proj2 (encodeURL_facts "a/b" "")) eq_refl).
Defined.

(** X2. [encodeURL] does not escape the percent sign, so it is not
    one-to-one: a target with [)] and the target with [%29] in its place get
    the same encoding, wherever it stands. *)
Theorem encodeURL_collision (a b : string) :
  a ++ ")" ++ b <> a ++ "%29" ++ b
  /\ encodeURL (a ++ ")" ++ b) = encodeURL (a ++ "%29" ++ b).
Proof.
  split.
  - induction a as [|x a IH]; cbn [append]; intros H.
    + discriminate H.
    + injection H as H. now apply IH.
  - now rewrite !encodeURL_append.
Qed.

(** X3. [encodeURLTitle] can be read back: dropping each escaping backslash
    gives the text again, so two different texts never get the same escaped
    form; the escaped form is one character longer for each backslash and
    bracket of the text. *)
Theorem encodeURLTitle_round_trip :
  (forall s, unescape (encodeURLTitle s) = s)
  /\ (forall s t, encodeURLTitle s = encodeURLTitle t -> s = t)
  /\ (forall s,
         String.length (encodeURLTitle s)
         = String.length s + countChar backslash s
           + countChar "[" s + countChar "]" s).
Proof.
  assert (Hrt : forall s, unescape (encodeURLTitle s) = s).
  { intros s. rewrite encodeURLTitle_escapeLinkText.
    induction s as [|a s IH]; [reflexivity|].
    cbn [escapeLinkText]. unfold escapeChar.
    destruct (Ascii.eqb a backslash) eqn:Eb.
    - cbn [orb append unescape]. rewrite Ascii.eqb_refl. now rewrite IH.
    - cbn [orb].
      destruct (Ascii.eqb a "[" || Ascii.eqb a "]"); cbn [orb append unescape].
      + rewrite Ascii.eqb_refl. now rewrite IH.
      + rewrite Eb. now rewrite IH. }
  split; [exact Hrt|]. split.
  - intros s t H. rewrite <- (Hrt s), <- (Hrt t). now rewrite H.
  - intros s. rewrite encodeURLTitle_escapeLinkText.
    induction s as [|a s IH]; [reflexivity|].
    cbn [escapeLinkText countChar]. unfold escapeChar.
    rewrite length_append, IH.
    destruct (Ascii.eqb a backslash) eqn:Eb.
    + apply Ascii.eqb_eq in Eb. subst a. cbn. lia.
    + destruct (Ascii.eqb a "[") eqn:El.
      * apply Ascii.eqb_eq in El. subst a. cbn. lia.
      * destruct (Ascii.eqb a "]"); cbn; lia.
Qed.

Lemma encodeURLTitle_round_trip_witness : "a[b]" = "a[b]".
Proof.
  exact (proj1 (proj2 encodeURLTitle_round_trip) "a[b]" "a[b]" eq_refl).
Defined.

(** ** The loop on arbitrary input *)

Lemma run_ok_invariant (nodes : list Entry) (k : nat) (st : State) :
  k <= List.length nodes ->
  runTo nodes k = Ok st ->
  StacksAt nodes k st.
Proof.
  revert st. induction k as [|k IH]; intros st Hk H.
  - injection H as <-. apply StacksAt_initial.
  - destruct (runTo_S_inv nodes k st Hk H)
      as (e & st0 & mid & He & Hr & Hd & ->).
    apply closeOut_stacks. apply (dispatch_pending nodes k e st0 mid He); auto.
    apply IH; [lia | exact Hr].
Qed.

Lemma descending_map {A B : Type} (dep : B -> Z) (dep' : A -> Z)
    (F : A -> B) (l : list A) :
  (forall i, dep (F i) = dep' i) ->
  descending dep' l -> descending dep (map F l).
Proof.
  intros H. induction l as [|a l IH]; cbn [map descending]; [trivial|].
  intros [Hall Hl]. split; [|now apply IH].
  apply Forall_map. rewrite H.
  eapply Forall_impl; [|exact Hall]. cbn. intros b Hb. now rewrite H.
Qed.

Lemma below_next_map {A : Type} (dep : A -> Z) (F : nat -> A)
    (kind : Node -> bool) (nodes : list Entry) (k : nat) :
  (forall i, dep (F i) = depthAt nodes i) ->
  Forall (fun f => (dep f < depthAt nodes k)%Z)
    (map F (rev (openFrames kind nodes k))).
Proof.
  intros H. apply Forall_map, Forall_forall. intros i Hi.
  apply in_rev in Hi. rewrite H.
  exact (proj1 (openFrames_lt nodes kind i k Hi)).
Qed.

(** X4. On any input, well-formed or not, the stacks after [k] completed
    turns hold exactly the frames of the code, quote and list nodes met so
    far whose first closing position is still to come, the list frames with
    the number of markers written for them.  In each stack the depths grow
    strictly from the bottom to the top, and every frame is less deep than
    the entry the next turn visits. *)
Theorem stacks_hold_open_frames (nodes : list Entry) (k : nat) (st : State) :
  k <= List.length nodes ->
  runTo nodes k = Ok st ->
  StacksAt nodes k st
  /\ descending code_depth (codeStack st)
  /\ descending quote_depth (quoteStack st)
  /\ descending list_depth (listStack st)
  /\ Forall (fun f => (code_depth f < depthAt nodes k)%Z) (codeStack st)
  /\ Forall (fun f => (quote_depth f < depthAt nodes k)%Z) (quoteStack st)
  /\ Forall (fun f => (list_depth f < depthAt nodes k)%Z) (listStack st).
Proof.
  intros Hk H. pose proof (run_ok_invariant nodes k st Hk H) as Hst.
  split; [exact Hst|]. destruct Hst as (Hc & Hq & Hl).
  rewrite Hc, Hq, Hl.
  repeat split;
    first [ apply (descending_map _ (depthAt nodes));
            [reflexivity | apply openFrames_descending]
          | now apply below_next_map ].
Qed.

Lemma stacks_hold_open_frames_witness :
  exists st,
    runTo sampleNestedLinks 3 = Ok st
    /\ StacksAt sampleNestedLinks 3 st
    /\ Forall (fun f => (code_depth f < depthAt sampleNestedLinks 3)%Z)
         (codeStack st).
Proof.
  eexists. split; [reflexivity|].
  assert (Hk : 3 <= List.length sampleNestedLinks) by (vm_compute; lia).
  destruct (stacks_hold_open_frames sampleNestedLinks 3 _ Hk eq_refl)
    as (Hst & _ & _ & _ & Hc & _).
  split; [exact Hst | exact Hc].
Defined.

(** Exceptions *)

Lemma runTo_Throw_RangeError (nodes : list Entry) (k : nat) (x : Exception) :
  runTo nodes k = Throw x -> x = RangeError.
Proof.
  induction k as [|k IH]; [discriminate|]. cbn [runTo].
  destruct (runTo nodes k) as [st|y]; cbn [bind].
  - unfold iterationAt. destruct (nth_error nodes k) as [e|]; [|discriminate].
    unfold iteration. destruct (dispatch e st) as [mid|y] eqn:E;
      cbn [bind]; [discriminate|].
    intros H. injection H as <-. now apply (dispatch_throws e st y).
  - intros H. injection H as <-. now apply IH.
Qed.

Lemma runTo_Throw_stays (nodes : list Entry) (k k' : nat) (x : Exception) :
  k <= k' -> runTo nodes k = Throw x -> runTo nodes k' = Throw x.
Proof.
  intros Hle H. induction Hle as [|k' Hle IH]; [exact H|].
  cbn [runTo]. now rewrite IH.
Qed.

Lemma markersHaveList_at (nodes : list Entry) (k : nat) (e : Entry) :
  markersHaveList nodes = true ->
  nth_error nodes k = Some e ->
  needsList (node e) = true -> openFrames isList nodes k <> [].
Proof.
  intros Hall He Hneed Hnil.
  unfold markersHaveList in Hall. rewrite forallb_forall in Hall.
  assert (Hk : In k (seq 0 (List.length nodes))).
  { apply in_seq. split; [lia|]. apply nth_error_Some. now rewrite He. }
  specialize (Hall k Hk).
  rewrite (nodeAt_nth nodes k e He), Hneed, Hnil in Hall. discriminate.
Qed.

Lemma dispatch_total_markers (nodes : list Entry) (k : nat) (e : Entry)
    (st : State) :
  StacksAt nodes k st ->
  (needsList (node e) = true -> openFrames isList nodes k <> []) ->
  exists mid, dispatch e st = Ok mid.
Proof.
  intros Hst Hneed.
  destruct (dispatch e st) as [mid|x] eqn:E; [now exists mid|].
  exfalso. destruct (dispatch_throws e st x E) as (Hitem & Hnil & _).
  destruct Hst as (_ & _ & Hl). rewrite Hl in Hnil.
  apply map_eq_nil in Hnil.
  apply (f_equal (@rev nat)) in Hnil. rewrite rev_involutive in Hnil.
  unfold dispatch in E.
  destruct (node e) as [tag|tag|cs fc|c f| | | | |url| ]; try discriminate.
  destruct (negb (hasSingleListChild cs fc)) eqn:Es; [|discriminate].
  apply Hneed; [exact Es | exact Hnil].
Qed.

Lemma run_ok_markers (nodes : list Entry) (k : nat) :
  markersHaveList nodes = true ->
  k <= List.length nodes ->
  exists st, runTo nodes k = Ok st.
Proof.
  intros Hall. induction k as [|k IH]; intros Hk.
  - now exists initialState.
  - destruct IH as [st Hr]; [lia|].
    destruct (nth_error nodes k) as [e|] eqn:He;
      [|apply nth_error_None in He; lia].
    pose proof (run_ok_invariant nodes k st ltac:(lia) Hr) as Hst.
    destruct (dispatch_total_markers nodes k e st Hst
                (markersHaveList_at nodes k e Hall He)) as [mid Hd].
    exists (closeOut (nth_error nodes (S k)) mid).
    cbn [runTo]. rewrite Hr. cbn [bind]. unfold iterationAt, iteration.
    now rewrite He, Hd.
Qed.

Lemma run_throws_at (nodes : list Entry) (k : nat) :
  k < List.length nodes ->
  needsList (nodeAt nodes k) = true ->
  openFrames isList nodes k = [] ->
  runTo nodes (S k) = Throw RangeError.
Proof.
  intros Hk Hneed Hnil.
  destruct (runTo nodes k) as [st|x] eqn:Hr.
  - cbn [runTo]. rewrite Hr. cbn [bind]. unfold iterationAt, iteration.
    destruct (nth_error nodes k) as [e|] eqn:He;
      [|apply nth_error_None in He; lia].
    rewrite (nodeAt_nth nodes k e He) in Hneed.
    pose proof (run_ok_invariant nodes k st ltac:(lia) Hr) as (_ & _ & Hl).
    rewrite Hnil in Hl. cbn in Hl.
    unfold dispatch. destruct (node e); try discriminate.
    cbn [needsList] in Hneed. rewrite Hneed.
    now rewrite emitListItem_spec, Hl.
  - cbn [runTo]. rewrite Hr. cbn [bind].
    now rewrite (runTo_Throw_RangeError nodes k x Hr).
Qed.

(** X5. The call returns a string exactly when every list item that asks
    for a marker lies in the subtree of a list; on every other input it raises
    [RangeError], from [' '.repeat(-4)], and nothing else is ever raised. *)
Theorem call_raises_exactly_on_stray_items (nodes : list Entry) :
  (markersHaveList nodes = true ->
   exists out, convertToMarkdownString nodes = Ok out)
  /\ (markersHaveList nodes = false ->
      convertToMarkdownString nodes = Throw RangeError)
  /\ (forall x, convertToMarkdownString nodes = Throw x -> x = RangeError).
Proof.
  unfold convertToMarkdownString. split; [|split].
  - intros Hall.
    destruct (run_ok_markers nodes (List.length nodes) Hall) as [st Hr]; [lia|].
    exists (text st). now rewrite Hr.
  - intros Hbad.
    assert (Hex : exists k, k < List.length nodes
                     /\ needsList (nodeAt nodes k) = true
                     /\ openFrames isList nodes k = []).
    { unfold markersHaveList in Hbad.
      destruct (forallb_forall
                  (fun k => negb (needsList (nodeAt nodes k))
                            || negb (isNil (openFrames isList nodes k)))
                  (seq 0 (List.length nodes))) as [_ Hback].
      destruct (existsb (fun k => needsList (nodeAt nodes k)
                                  && isNil (openFrames isList nodes k))
                  (seq 0 (List.length nodes))) eqn:Eex.
      - apply existsb_exists in Eex. destruct Eex as (k & Hin & Hk).
        apply in_seq in Hin. apply andb_true_iff in Hk. destruct Hk as [Hn Ho].
        exists k. repeat split; [lia | exact Hn |].
        now destruct (openFrames isList nodes k).
      - rewrite Hback in Hbad; [discriminate|].
        intros k Hin.
        destruct (needsList (nodeAt nodes k)) eqn:Hn; [|reflexivity].
        destruct (isNil (openFrames isList nodes k)) eqn:Ho; [|reflexivity].
        exfalso.
        assert (Hk : existsb (fun k => needsList (nodeAt nodes k)
                                && isNil (openFrames isList nodes k))
                       (seq 0 (List.length nodes)) = true).
        { apply existsb_exists. exists k. now rewrite Hn, Ho. }
        now rewrite Hk in Eex. }
    destruct Hex as (k & Hk & Hneed & Hnil).
    rewrite (runTo_Throw_stays nodes (S k) (List.length nodes) RangeError);
      [reflexivity | lia | now apply run_throws_at].
  - intros x H.
    destruct (runTo nodes (List.length nodes)) as [st|y] eqn:Hr;
      [discriminate|].
    cbn [bind] in H. injection H as <-.
    now apply (runTo_Throw_RangeError nodes (List.length nodes)).
Qed.

Lemma call_raises_exactly_on_stray_items_witness :
  (exists out, convertToMarkdownString sampleBullets = Ok out)
  /\ convertToMarkdownString sampleStrayItem = Throw RangeError.
Proof.
  split.
  - exact (proj1 (call_raises_exactly_on_stray_items sampleBullets) eq_refl).
  - exact (proj1 (proj2 (call_raises_exactly_on_stray_items sampleStrayItem))
             eq_refl).
Defined.

(** X6. When the call returns, no code, quote or list frame is left on the
    stacks at the end of the loop, whatever the input; no link frame is left
    either when no link lies inside another link. *)
Theorem nothing_left_open (nodes : list Entry) (out : string) :
  convertToMarkdownString nodes = Ok out ->
  exists final,
    runTo nodes (List.length nodes) = Ok final
    /\ text final = out
    /\ codeStack final = []
    /\ quoteStack final = []
    /\ listStack final = []
    /\ (linksNotNested nodes = true -> closingBracketStack final = []).
Proof.
  unfold convertToMarkdownString. intros H.
  destruct (runTo nodes (List.length nodes)) as [final|] eqn:Hr;
    [|discriminate].
  cbn [bind] in H. injection H as <-.
  exists final. split; [reflexivity|]. split; [reflexivity|].
  destruct (run_ok_invariant nodes _ final (Nat.le_refl _) Hr)
    as (Hc & Hq & Hl).
  rewrite Hc, Hq, Hl, !openFrames_end. repeat split.
  intros Hflat.
  rewrite (link_invariant nodes Hflat _ final (Nat.le_refl _) Hr).
  now rewrite openFrames_end.
Qed.

Lemma nothing_left_open_witness :
  exists final,
    runTo sampleCode (List.length sampleCode) = Ok final
    /\ codeStack final = [] /\ closingBracketStack final = [].
Proof.
  destruct (nothing_left_open sampleCode _ eq_refl)
    as (final & Hr & _ & Hc & _ & _ & Hlinks).
  exists final. split; [exact Hr|]. split; [exact Hc | exact (Hlinks eq_refl)].
Defined.

(** ** One entry of lookahead *)

Lemma runTo_ext (nodes1 nodes2 : list Entry) (k : nat) :
  (forall j, j <= k -> nth_error nodes1 j = nth_error nodes2 j) ->
  runTo nodes1 k = runTo nodes2 k.
Proof.
  induction k as [|k IH]; intros H; [reflexivity|].
  cbn [runTo]. rewrite IH by (intros j Hj; apply H; lia).
  destruct (runTo nodes2 k) as [st|]; [|reflexivity]. cbn [bind].
  unfold iterationAt. now rewrite (H k), (H (S k)) by lia.
Qed.

(** X7. The state after [k] turns depends on the entries [0 .. k] only: the
    loop looks one entry ahead and no further.  So entries added at the end
    of a document change nothing before its last turn. *)
Theorem one_entry_of_lookahead (nodes1 nodes2 : list Entry) (k : nat) :
  firstn (S k) nodes1 = firstn (S k) nodes2 ->
  runTo nodes1 k = runTo nodes2 k
  /\ (forall more, k < List.length nodes1 ->
                   runTo (nodes1 ++ more)%list k = runTo nodes1 k).
Proof.
  intros H. split.
  - apply runTo_ext. intros j Hj.
    assert (Hlt : (j <? S k)%nat = true) by (apply Nat.ltb_lt; lia).
    pose proof (nth_error_firstn (S k) nodes1 j) as H1.
    pose proof (nth_error_firstn (S k) nodes2 j) as H2.
    rewrite Hlt in H1, H2. rewrite <- H1, <- H2. now rewrite H.
  - intros more Hk. apply runTo_ext. intros j Hj.
    apply nth_error_app1. lia.
Qed.

Lemma one_entry_of_lookahead_witness :
  runTo sampleQuote 2 = runTo (firstn 3 sampleQuote) 2.
Proof.
  exact (proj1 (one_entry_of_lookahead sampleQuote (firstn 3 sampleQuote) 2
                  eq_refl)).
Defined.

(** ** Block boundaries *)

(** X8. When the entry the next turn visits is no deeper than any code,
    quote or list node before it, the code, quote and list stacks are empty:
    every block before it has been closed. *)
Theorem stacks_empty_at_block_boundary (nodes : list Entry) (k : nat)
    (st : State) :
  k < List.length nodes ->
  (forall i, i < k ->
     isCode (nodeAt nodes i) || isQuote (nodeAt nodes i)
       || isList (nodeAt nodes i) = true ->
     (depthAt nodes k <= depthAt nodes i)%Z) ->
  runTo nodes k = Ok st ->
  codeStack st = [] /\ quoteStack st = [] /\ listStack st = [].
Proof.
  intros Hk Hshallow Hr.
  assert (Hnone : forall kind,
            (forall i, kind (nodeAt nodes i) = true ->
                       isCode (nodeAt nodes i) || isQuote (nodeAt nodes i)
                         || isList (nodeAt nodes i) = true) ->
            openFrames kind nodes k = []).
  { intros kind Hkind.
    destruct (openFrames kind nodes k) as [|i l] eqn:E; [reflexivity|].
    assert (Hin : In i (openFrames kind nodes k)) by (rewrite E; now left).
    pose proof (proj1 (openFrames_lt nodes kind i k Hin)) as Hlt.
    apply openFrames_In in Hin. destruct Hin as (Hik & Hki & _).
    specialize (Hshallow i Hik (Hkind i Hki)). lia. }
  destruct (run_ok_invariant nodes k st ltac:(lia) Hr) as (Hc & Hq & Hl).
  rewrite Hc, Hq, Hl.
  rewrite (Hnone isCode), (Hnone isQuote), (Hnone isList); [now repeat split|..];
    intros i Hi; rewrite Hi; now rewrite ?orb_true_r.
Qed.

Lemma stacks_empty_at_block_boundary_witness :
  exists st,
    runTo sampleQuote 3 = Ok st
    /\ codeStack st = [] /\ quoteStack st = [] /\ listStack st = [].
Proof.
  eexists. split; [reflexivity|].
  apply (stacks_empty_at_block_boundary sampleQuote 3).
  - vm_compute. lia.
  - intros i Hi.
    destruct i as [|[|[|i]]]; vm_compute; try discriminate; lia.
  - reflexivity.
Defined.

(** ** The first line break *)

Lemma closeOut_flag (nextNode : option Entry) (st : State) :
  shouldAppendFirstLineBreak (closeOut nextNode st)
  = shouldAppendFirstLineBreak st.
Proof. now rewrite closeOut_spec. Qed.

Lemma flag_invariant (nodes : list Entry) (k : nat) (st : State) :
  k <= List.length nodes ->
  runTo nodes k = Ok st ->
  shouldAppendFirstLineBreak st
  = existsb (fun i => isParagraph (nodeAt nodes i)) (seq 0 k).
Proof.
  revert st. induction k as [|k IH]; intros st Hk H.
  - now injection H as <-.
  - destruct (runTo_S_inv nodes k st Hk H)
      as (e & st0 & mid & He & Hr & Hd & ->).
    rewrite closeOut_flag, (dispatch_flag e st0 mid Hd).
    rewrite seq_S, existsb_app. cbn [existsb Nat.add].
    rewrite <- (IH st0) by (auto; lia).
    rewrite (nodeAt_nth nodes k e He), orb_false_r.
    destruct (node e); cbn [isParagraph];
      now rewrite ?orb_false_r, ?orb_true_r.
Qed.

(** X9. The flag is set after [k] turns exactly when a paragraph is among
    the first [k] entries.  While it is clear and the output is still empty,
    a node that asks for a line break gets none: the output starts with the
    marker of the node. *)
Theorem no_leading_line_break (nodes : list Entry) (k : nat) (st : State) :
  k <= List.length nodes ->
  runTo nodes k = Ok st ->
  shouldAppendFirstLineBreak st
  = existsb (fun i => isParagraph (nodeAt nodes i)) (seq 0 k)
  /\ (forall e marker,
         nth_error nodes k = Some e ->
         blockMarker (node e) = Some marker ->
         text st = "" ->
         existsb (fun i => isParagraph (nodeAt nodes i)) (seq 0 k) = false ->
         exists mid, dispatch e st = Ok mid /\ text mid = marker).
Proof.
  intros Hk Hr. pose proof (flag_invariant nodes k st Hk Hr) as Hflag.
  split; [exact Hflag|].
  intros e marker He Hm Ht Hnone.
  destruct (dispatch e st) as [mid|x] eqn:Hd.
  - exists mid. split; [reflexivity|].
    rewrite (dispatch_block e st mid marker Hm Hd), Ht, Hflag, Hnone.
    reflexivity.
  - destruct (dispatch_throws e st x Hd) as (Hitem & _).
    unfold blockMarker in Hm. now destruct (node e).
Qed.

Lemma no_leading_line_break_witness :
  exists mid,
    dispatch (ent 1 QuoteNode) initialState = Ok mid /\ text mid = "> ".
Proof.
  assert (Hk : 1 <= List.length sampleQuote) by (vm_compute; lia).
  destruct (no_leading_line_break sampleQuote 1 initialState Hk eq_refl)
    as [_ H].
  exact (H (ent 1 QuoteNode) "> " eq_refl eq_refl eq_refl eq_refl).
Defined.

(** ** Text runs and links *)

Lemma dispatch_links_push (nodes : list Entry) (k : nat) (e : Entry)
    (st mid : State) :
  nth_error nodes k = Some e ->
  dispatch e st = Ok mid ->
  closingBracketStack mid
  = ((if isLink (node e) then [linkFrameAt nodes k] else [])
       ++ closingBracketStack st)%list.
Proof.
  intros He H. rewrite (dispatch_closingBracketStack e st mid H).
  destruct (node e) eqn:En; try reflexivity.
  cbn [isLink app]. f_equal. unfold linkFrameAt, urlAt.
  rewrite (nodeAt_nth nodes k e He), (depthAt_nth nodes k e He), En.
  now rewrite encodeURL_percentEncode.
Qed.

Lemma popOnce_keeps (nextNode : option Entry) (s : list LinkFrame)
    (f : LinkFrame) :
  In f s -> closes nextNode (link_depth f) = false ->
  In f (popOnce nextNode s).
Proof.
  destruct s as [|top below]; [contradiction|]. cbn [popOnce].
  intros Hin Hf. destruct (closes nextNode (link_depth top)) eqn:E;
    [|exact Hin].
  destruct Hin as [->|Hin]; [congruence | exact Hin].
Qed.

Lemma link_frames_kept (nodes : list Entry) (k : nat) (st : State) :
  k <= List.length nodes ->
  runTo nodes k = Ok st ->
  forall i, In i (openFrames isLink nodes k) ->
            In (linkFrameAt nodes i) (closingBracketStack st).
Proof.
  revert st. induction k as [|k IH]; intros st Hk H i Hi.
  - contradiction.
  - destruct (runTo_S_inv nodes k st Hk H)
      as (e & st0 & mid & He & Hr & Hd & ->).
    rewrite openFrames_S in Hi. apply filter_In in Hi.
    destruct Hi as [Hi Hnc]. apply negb_true_iff in Hnc.
    rewrite closeOut_spec. cbn [closingBracketStack].
    apply popOnce_keeps; [|exact Hnc].
    rewrite (dispatch_links_push nodes k e st0 mid He Hd).
    unfold pending in Hi. rewrite (nodeAt_nth nodes k e He) in Hi.
    apply in_or_app. apply in_app_or in Hi. destruct Hi as [Hi|Hi].
    + right. apply (IH st0); [lia | exact Hr | exact Hi].
    + left. destruct (isLink (node e)); [|contradiction].
      destruct Hi as [<-|[]]. now left.
Qed.

(** X10. On any input a link frame stays on the link stack until its first
    closing position at least: it is never popped early.  So a text run in
    the subtree of a link is always written escaped. *)
Theorem text_in_a_link_is_escaped (nodes : list Entry) (k : nat) (st : State) :
  k <= List.length nodes ->
  runTo nodes k = Ok st ->
  (forall i, In i (openFrames isLink nodes k) ->
             In (linkFrameAt nodes i) (closingBracketStack st))
  /\ (forall e content format,
         nth_error nodes k = Some e ->
         node e = TextNode content format ->
         openFrames isLink nodes k <> [] ->
         dispatch e st
         = Ok (setText st (text st ++ formatText true content format))).
Proof.
  intros Hk Hr. pose proof (link_frames_kept nodes k st Hk Hr) as Hkept.
  split; [exact Hkept|].
  intros e content format He Hn Hopen. unfold dispatch. rewrite Hn.
  destruct (openFrames isLink nodes k) as [|i l] eqn:E; [now elim Hopen|].
  specialize (Hkept i (or_introl eq_refl)).
  now destruct (closingBracketStack st).
Qed.

Lemma text_in_a_link_is_escaped_witness :
  exists st,
    runTo sampleLink 4 = Ok st
    /\ dispatch (ent 3 (TextNode "b]" [bold])) st
       = Ok (setText st (text st ++ formatText true "b]" [bold])).
Proof.
  eexists. split; [reflexivity|].
  assert (Hk : 4 <= List.length sampleLink) by (vm_compute; lia).
  apply (proj2 (text_in_a_link_is_escaped sampleLink 4 _ Hk eq_refl)
           (ent 3 (TextNode "b]" [bold])) "b]" [bold] eq_refl eq_refl).
  vm_compute. discriminate.
Defined.

(** X11. When no link lies inside another link, a text run is written
    escaped exactly when it lies in the subtree of a link: after a link has
    closed, the text that follows is written as it is. *)
Theorem text_is_escaped_only_in_a_link (nodes : list Entry) (k : nat)
    (st : State) (e : Entry) (content : string)
    (format : list TextFormatType) :
  linksNotNested nodes = true ->
  k <= List.length nodes ->
  runTo nodes k = Ok st ->
  nth_error nodes k = Some e ->
  node e = TextNode content format ->
  dispatch e st
  = Ok (setText st
          (text st
           ++ formatText (negb (isNil (openFrames isLink nodes k)))
                content format)).
Proof.
  intros Hflat Hk Hr He Hn. unfold dispatch. rewrite Hn.
  rewrite (link_invariant nodes Hflat k st Hk Hr), length_map, length_rev.
  now destruct (openFrames isLink nodes k).
Qed.

Lemma text_is_escaped_only_in_a_link_witness :
  exists st,
    runTo sampleLink 5 = Ok st
    /\ dispatch (ent 2 (TextNode "c" [])) st
       = Ok (setText st
               (text st
                ++ formatText (negb (isNil (openFrames isLink sampleLink 5)))
                     "c" [])).
Proof.
  eexists. split; [reflexivity|].
  apply (text_is_escaped_only_in_a_link sampleLink 5); try reflexivity.
  vm_compute. lia.
Defined.

(** ** Markers of list items *)

Lemma length_repeatString_space (n : nat) :
  String.length (repeatString " " n) = n.
Proof. induction n as [|n IH]; cbn; [reflexivity | now rewrite IH]. Qed.

(** X12. On any input, a list item that asks for a marker while the
    innermost open list is unordered writes the line break, four spaces for
    each open list but the innermost, and [- ]; it changes no stack and no
    counter.  When the tag of that list is neither [ol] nor [ul] it writes
    the line break only. *)
Theorem unordered_item_marker (nodes : list Entry) (k i : nat) (st : State)
    (e : Entry) (childrenSize : nat) (firstChildIsList : bool) :
  k <= List.length nodes ->
  runTo nodes k = Ok st ->
  nth_error nodes k = Some e ->
  node e = ListItemNode childrenSize firstChildIsList ->
  hasSingleListChild childrenSize firstChildIsList = false ->
  markerOwner nodes k = Some i ->
  let lineBreak :=
    appendLineBreak (text st) (shouldAppendFirstLineBreak st) in
  let indent :=
    repeatString " " ((List.length (openFrames isList nodes k) - 1) * 4) in
  String.length indent = (List.length (openFrames isList nodes k) - 1) * 4
  /\ (tagAt nodes i = "ul" ->
      dispatch e st = Ok (setText st (lineBreak ++ indent ++ "- ")))
  /\ (String.eqb (tagAt nodes i) "ol" = false ->
      String.eqb (tagAt nodes i) "ul" = false ->
      dispatch e st = Ok (setText st lineBreak)).
Proof.
  intros Hk Hr He Hn Hsingle Hown. cbv zeta.
  split; [apply length_repeatString_space|].
  destruct (run_ok_invariant nodes k st Hk Hr) as (_ & _ & Hl).
  unfold markerOwner in Hown.
  rewrite (nodeAt_nth nodes k e He), Hn, Hsingle in Hown.
  assert (Hlen : List.length (openFrames isList nodes k)
                 = List.length (rev (openFrames isList nodes k)))
    by now rewrite length_rev.
  destruct (rev (openFrames isList nodes k)) as [|i0 rest]; [discriminate|].
  injection Hown as ->.
  assert (Hd : dispatch e st
               = let t := appendLineBreak (text st)
                            (shouldAppendFirstLineBreak st) in
                 let indent := repeatString " " (List.length rest * 4) in
                 if String.eqb (tagAt nodes i) "ol" then
                   Ok {| text := t ++ indent
                                 ++ numberToString
                                      (S (count (listFrameAt nodes k i)))
                                 ++ ". ";
                         shouldAppendFirstLineBreak :=
                           shouldAppendFirstLineBreak st;
                         closingBracketStack := closingBracketStack st;
                         listStack :=
                           {| count := S (count (listFrameAt nodes k i));
                              list_depth := list_depth (listFrameAt nodes k i);
                              list_tag := list_tag (listFrameAt nodes k i) |}
                             :: map (listFrameAt nodes k) rest;
                         quoteStack := quoteStack st;
                         codeStack := codeStack st |}
                 else if String.eqb (tagAt nodes i) "ul" then
                   Ok (setText st (t ++ indent ++ "- "))
                 else Ok (setText st t)).
  { unfold dispatch. rewrite Hn, Hsingle. cbn [negb].
    rewrite emitListItem_spec, Hl. cbn [map]. now rewrite length_map. }
  rewrite Hd, Hlen. cbn [List.length]. cbv zeta.
  replace (S (List.length rest) - 1) with (List.length rest) by lia.
  split.
  - intros Hul. now rewrite Hul.
  - intros Hol Hul. now rewrite Hol, Hul.
Qed.

Lemma unordered_item_marker_witness :
  exists st,
    runTo sampleBullets 6 = Ok st
    /\ dispatch (ent 4 (ListItemNode 1 false)) st
       = Ok (setText st
               (appendLineBreak (text st) (shouldAppendFirstLineBreak st)
                ++ repeatString " " 4 ++ "- ")).
Proof.
  eexists. split; [reflexivity|].
  assert (Hk : 6 <= List.length sampleBullets) by (vm_compute; lia).
  exact (proj1 (proj2
           (unordered_item_marker sampleBullets 6 5 _
              (ent 4 (ListItemNode 1 false)) 1 false
              Hk eq_refl eq_refl eq_refl eq_refl eq_refl))
           eq_refl).
Defined.

(** ** Closing texts on arbitrary input *)

(** X13. On any input on which the call returns, the close-out pass of each
    turn writes, after the closing text of at most one link, one fence for
    each code frame and then one line break for each quote frame whose first
    closing position is that turn.  Over the call the line breaks written
    for quotes are as many as the quote nodes, and the closing fences as many
    as the code nodes. *)
Theorem closings_balanced_on_any_input (nodes : list Entry) (out : string) :
  convertToMarkdownString nodes = Ok out ->
  (forall k,
      k < List.length nodes ->
      exists e st mid st',
        nth_error nodes k = Some e
        /\ runTo nodes k = Ok st
        /\ dispatch e st = Ok mid
        /\ runTo nodes (S k) = Ok st'
        /\ text st'
           = text mid
             ++ linkClosing (nth_error nodes (S k)) (closingBracketStack mid)
             ++ repeatString fence (List.length (closedAt isCode nodes k))
             ++ repeatString newline
                  (List.length (closedAt isQuote nodes k)))
  /\ list_sum (map (fun k => List.length (closedAt isQuote nodes k))
                 (seq 0 (List.length nodes)))
     = List.length (filter (fun e => isQuote (node e)) nodes)
  /\ list_sum (map (fun k => List.length (closedAt isCode nodes k))
                 (seq 0 (List.length nodes)))
     = List.length (filter (fun e => isCode (node e)) nodes).
Proof.
  unfold convertToMarkdownString. intros H.
  destruct (runTo nodes (List.length nodes)) as [final|] eqn:Hfinal;
    [|discriminate].
  clear H. split; [|split].
  - intros k Hk.
    destruct (runTo_grows nodes (S k) _ final Hk Hfinal)
      as (st' & _ & Hr' & _).
    destruct (runTo_S_inv nodes k st' Hk Hr')
      as (e & st & mid & He & Hr & Hd & Hst').
    exists e, st, mid, st'. repeat (split; [assumption|]).
    rewrite Hst'. apply closeOut_text.
    apply (dispatch_pending nodes k e st mid He); [|exact Hd].
    apply run_ok_invariant; [lia | exact Hr].
  - pose proof (closedAt_count nodes isQuote (List.length nodes)) as Hc.
    rewrite openFrames_end, count_positions in Hc. cbn [List.length] in Hc.
    lia.
  - pose proof (closedAt_count nodes isCode (List.length nodes)) as Hc.
    rewrite openFrames_end, count_positions in Hc. cbn [List.length] in Hc.
    lia.
Qed.

Lemma closings_balanced_on_any_input_witness :
  list_sum (map (fun k => List.length (closedAt isQuote sampleNestedQuote k))
              (seq 0 (List.length sampleNestedQuote)))
  = List.length (filter (fun e => isQuote (node e)) sampleNestedQuote).
Proof.
  exact (proj1 (proj2
           (closings_balanced_on_any_input sampleNestedQuote _ eq_refl))).
Defined.
